(** * roofig: the fit-parameter collection and the curve sampler

    A shallow embedding of [roofig/__init__.py]: the class [FitParameters]
    (a namespace of named fit parameters kept in the instance dictionary,
    with the set of tracked names in the attribute [param_list]) and the
    method [Plotter.sample_pdf].

    Python objects with identity (the engine's variables and categories,
    and the wrapper class [FitParameters.RealVar]) live in a store that is
    only ever extended by allocation; the instance dictionary holds
    references into it.  Methods are state transformers that return either
    a value or the exception they raise; the state survives an exception,
    as it does in Python. *)

From stdpp Require Import gmap strings list fin_maps pretty numbers sorting.
From Stdlib Require Import Ascii QArith Qcanon.

Close Scope Qc_scope.
Close Scope Q_scope.
Open Scope string_scope.

(** ** Characters that the source writes with escapes *)

Definition quote : string := String (Ascii.ascii_of_nat 34) "".
Definition newline : string := String (Ascii.ascii_of_nat 10) "".
Definition tab : string := String (Ascii.ascii_of_nat 9) "".

(** ** Values and the store *)

Definition loc := nat.

(** The Python values that reach the collection.  [VInt] and [VFloat] are
    the builtin [int] and [float]; [VNumpy] is a numpy scalar (what
    [np.min] returns), whose type is neither; [VNames] is the [set] of
    tracked names; [VRef] points into the store. *)
Inductive pyval :=
  | VNone
  | VInt (z : Z)
  | VFloat (q : Qc)
  | VNumpy (q : Qc)
  | VStr (s : string)
  | VRef (l : loc)
  | VNames (s : gset string).

(** [type(value) in [int, float]] *)
Definition is_int_or_float (v : pyval) : bool :=
  match v with
  | VInt _ | VFloat _ => true
  | _ => false
  end.

(** An [int] converts to a double when its magnitude is below this bound,
    the first that rounds beyond the largest double. *)
Definition double_limit : Z := Eval vm_compute in (2 ^ 1024 - 2 ^ 970)%Z.

(** The number a numeric value converts to when it is handed to the
    engine, which takes doubles; an [int] that no double holds does not
    convert. *)
Definition as_double (v : pyval) : option Qc :=
  match v with
  | VInt z =>
      if bool_decide (Z.abs z < double_limit)%Z then Some (Qc_of_Z z)
      else None
  | VFloat q | VNumpy q => Some q
  | _ => None
  end.

Inductive exn :=
  | ConfigurationError
  | AttributeError
  | TypeError
  | ValueError
  | KeyError
  | IndexError
  | OutsideModel.

Inductive result (A : Type) :=
  | Ok (a : A)
  | Raise (e : exn).
Arguments Ok {A} a.
Arguments Raise {A} e.

(** ** The fit engine *)

Module Engine.

(** Modelled from the spec: the engine's scalar variable ([RooRealVar] of
    ROOT, imported, not part of this repository): a name, a value, bounds
    and a constancy flag, with getters and setters. *)
Record RooRealVar := {
  GetName : string;
  GetTitle : string;
  getVal : Qc;
  getMin : Qc;
  getMax : Qc;
  isConstant : bool }.

(** The engine's stand-in for an unbounded range end: a bound at or
    beyond it, on either side, is no bound. *)
Definition infinity : Qc := Qc_of_Z (10 ^ 30).

Definition is_infinite (x : Qc) : bool :=
  bool_decide (infinity <= x)%Qc || bool_decide (x <= - infinity)%Qc.

(** The tolerance of the engine's range test. *)
Definition range_tolerance : Qc := Q2Qc (1 # 1000000).

(** The value the engine keeps when [x] is assigned to a variable with
    the range from [lo] to [hi]: a value beyond a bound (by more than the
    tolerance) becomes that bound, unless the bound is infinite. *)
Definition clip (lo hi x : Qc) : Qc :=
  if negb (is_infinite lo) && bool_decide (x < lo - range_tolerance)%Qc
  then lo
  else if negb (is_infinite hi) && bool_decide (hi + range_tolerance < x)%Qc
  then hi
  else x.

(** [x] lies within the range from [lo] to [hi], an infinite end being no
    limit. *)
Definition within (lo hi x : Qc) : Prop :=
  (is_infinite lo = true ∨ (lo <= x)%Qc) ∧
  (is_infinite hi = true ∨ (x <= hi)%Qc).

(** Modelled from the spec: the constructor's overloads,
    [(name, title, value)], [(name, title, min, max)] and
    [(name, title, value, min, max)]; anything else is rejected.  A
    maximum below the minimum is set to the minimum, and the first value
    is clipped to the range. *)
Definition new_RooRealVar (name title : string) (args : list pyval)
  : result RooRealVar :=
  match as_double <$> args with
  | [Some v] =>
      Ok {| GetName := name; GetTitle := title; getVal := v;
            getMin := (- infinity)%Qc; getMax := infinity;
            isConstant := true |}
  | [Some lo; Some hi] =>
      let hi' := if decide (hi < lo)%Qc then lo else hi in
      let v :=
        if is_infinite lo then (if is_infinite hi then 0%Qc else hi)
        else if is_infinite hi then lo
        else ((lo + hi) / Qc_of_Z 2)%Qc in
      Ok {| GetName := name; GetTitle := title; getVal := clip lo hi' v;
            getMin := lo; getMax := hi'; isConstant := false |}
  | [Some v; Some lo; Some hi] =>
      let hi' := if decide (hi < lo)%Qc then lo else hi in
      Ok {| GetName := name; GetTitle := title; getVal := clip lo hi' v;
            getMin := lo; getMax := hi'; isConstant := false |}
  | _ => Raise TypeError
  end.

Definition setVal (x : Qc) (v : RooRealVar) : RooRealVar :=
  {| GetName := GetName v; GetTitle := GetTitle v;
     getVal := clip (getMin v) (getMax v) x;
     getMin := getMin v; getMax := getMax v;
     isConstant := isConstant v |}.

(** Modelled from the spec: the engine's categorical variable
    ([RooCategory]): a name and the defined levels, label and code. *)
Record RooCategory := {
  cat_name : string;
  cat_title : string;
  cat_types : list (string * Z);
  cat_constant : bool }.

Definition new_RooCategory (name title : string) : RooCategory :=
  {| cat_name := name; cat_title := title; cat_types := [];
     cat_constant := false |}.

(** The level code is a 32-bit signed integer. *)
Definition fits_Int_t (code : Z) : bool :=
  bool_decide (- 2 ^ 31 <= code < 2 ^ 31)%Z.

(** [defineType(label, code)]: a code that is no 32-bit integer does not
    convert and the call raises; a label that exists already is refused
    and the category stays as it is. *)
Definition defineType (label : string) (code : Z) (c : RooCategory)
  : result RooCategory :=
  if negb (fits_Int_t code) then Raise TypeError
  else if bool_decide (label ∈ c.(cat_types).*1) then Ok c
  else Ok {| cat_name := cat_name c; cat_title := cat_title c;
             cat_types := cat_types c ++ [(label, code)];
             cat_constant := cat_constant c |}.

End Engine.

(** What the store holds: the engine's two primitives, and the wrapper
    [FitParameters.RealVar], whose only attribute [var] refers to the
    [RooRealVar] its constructor made. *)
Inductive obj :=
  | ORooRealVar (v : Engine.RooRealVar)
  | ORealVar (var : loc)
  | ORooCategory (c : Engine.RooCategory).

(** ** The collection's state *)

Record state := {
  dict : gmap string pyval;     (* the instance's [__dict__] *)
  heap : list obj;              (* the store, in allocation order *)
  stdout : list string }.       (* the lines printed so far *)

Definition set_dict (d : gmap string pyval) (st : state) : state :=
  {| dict := d; heap := heap st; stdout := stdout st |}.
Definition set_heap (h : list obj) (st : state) : state :=
  {| dict := dict st; heap := h; stdout := stdout st |}.
Definition print (line : string) (st : state) : state :=
  {| dict := dict st; heap := heap st; stdout := stdout st ++ [line] |}.

(** ** State and exceptions *)

Definition M (A : Type) : Type := state → result A * state.

Definition raise {A} (e : exn) : M A := λ st, (Raise e, st).
Definition lift {A} (r : result A) : M A := λ st, (r, st).
Definition modify (f : state → state) : M unit := λ st, (Ok tt, f st).

#[global] Instance M_ret : MRet M := λ A a st, (Ok a, st).
#[global] Instance M_bind : MBind M := λ A B k m st,
  match m st with
  | (Ok a, st') => k a st'
  | (Raise e, st') => (Raise e, st')
  end.

(** [for x in xs: body x] *)
Fixpoint for_each {A} (xs : list A) (body : A → M unit) : M unit :=
  match xs with
  | [] => mret tt
  | x :: xs' => body x ;; for_each xs' body
  end.

(** ** Names *)

(** The names the class body binds.  An instance attribute of such a name
    would meet a method, the nested class or the property [r] in
    attribute lookup. *)
Definition class_body : list string :=
  ["RealVar"; "r"; "add_param"; "expand_params"; "add_observable";
   "add_category"; "pop"; "glob"].

Definition is_dunder (name : string) : bool :=
  String.prefix "__" name && String.prefix "__" (String.rev name).

(** Names whose lookup or assignment goes through the class (methods, the
    property, the special attributes inherited from [object]).  The model
    stops with [OutsideModel] when asked to look up or bind one. *)
Definition reserved (name : string) : bool :=
  is_dunder name || bool_decide (name ∈ class_body).

(** A name free for a parameter: not reserved, and not the attribute that
    holds the tracked names. *)
Definition plain (name : string) : bool :=
  negb (reserved name) && negb (String.eqb name "param_list").

(** ** FitParameters *)

(** [FitParameters.__init__]: the first assignment of [param_list] finds no
    such attribute and stores the empty set. *)
Definition init : state :=
  {| dict := {["param_list" := VNames ∅]}; heap := []; stdout := [] |}.

(** [getattr(self, name)] *)
Definition getattr (name : string) : M pyval :=
  λ st, if reserved name then (Raise OutsideModel, st)
        else match dict st !! name with
             | Some v => (Ok v, st)
             | None => (Raise AttributeError, st)
             end.

(** [self.param_list], where the code goes on to use it as a set; [e] is
    what the use raises on a value that is no set ([AttributeError] for a
    method call, [TypeError] for [in], [len] and iteration). *)
Definition get_param_list (e : exn) : M (gset string) :=
  v ← getattr "param_list";
  match v with
  | VNames s => mret s
  | _ => raise e
  end.

(** Allocation of a new object. *)
Definition alloc (o : obj) : M loc :=
  λ st, (Ok (length (heap st)), set_heap (heap st ++ [o]) st).

(** The engine's [setVal] called from Python: the argument has to
    convert to a double. *)
Definition engine_setVal (value : pyval) (v : Engine.RooRealVar)
  : result Engine.RooRealVar :=
  match as_double value with
  | Some x => Ok (Engine.setVal x v)
  | None => Raise TypeError
  end.

(** [target.setVal(value)]: a wrapper hands the call on to its [var]
    ([RealVar.__getattr__]); an engine variable takes it; nothing else has
    the method. *)
Definition call_setVal (target : pyval) (value : pyval) : M unit :=
  λ st,
    match target with
    | VRef l =>
        match heap st !! l with
        | Some (ORealVar vl) =>
            match heap st !! vl with
            | Some (ORooRealVar v) =>
                match engine_setVal value v with
                | Ok v' =>
                    (Ok tt, set_heap (<[vl := ORooRealVar v']> (heap st)) st)
                | Raise e => (Raise e, st)
                end
            | _ => (Raise OutsideModel, st)
            end
        | Some (ORooRealVar v) =>
            match engine_setVal value v with
            | Ok v' =>
                (Ok tt, set_heap (<[l := ORooRealVar v']> (heap st)) st)
            | Raise e => (Raise e, st)
            end
        | Some (ORooCategory _) => (Raise AttributeError, st)
        | None => (Raise OutsideModel, st)
        end
    | _ => (Raise AttributeError, st)
    end.

Definition warning (name : string) : string :=
  "warning: overriding " ++ quote ++ name ++ quote.

(** [FitParameters.__setattr__] *)
Definition __setattr__ (name : string) (value : pyval) : M unit :=
  λ st,
    if reserved name then (Raise OutsideModel, st)
    else
      match dict st !! name with
      | Some current =>                               (* hasattr(self, name) *)
          if is_int_or_float value then call_setVal current value st
          else (Ok tt, set_dict (<[name := value]> (dict st))
                                (print (warning name) st))
      | None => (Ok tt, set_dict (<[name := value]> (dict st)) st)
      end.

(** [FitParameters.RealVar.__init__]: [RooRealVar(args[0], args[0],
    *args[1:])], then the wrapper around it. *)
Definition new_RealVar (name : string) (args : list pyval) : M loc :=
  v ← lift (Engine.new_RooRealVar name name args);
  vl ← alloc (ORooRealVar v);
  alloc (ORealVar vl).

(** [self.param_list.add(name)]: the set is changed in place, not
    assigned. *)
Definition param_list_add (name : string) : M unit :=
  s ← get_param_list AttributeError;
  modify (λ st, set_dict (<["param_list" := VNames ({[name]} ∪ s)]> (dict st)) st).

(** [FitParameters.add_param] *)
Definition add_param (name : string) (args : list pyval) : M unit :=
  param ← new_RealVar name args;
  param_list_add name ;;
  __setattr__ name (VRef param).

(** ** Template expansion *)

(** [itertools.product] applied to the pools, as the library documents it: the result
    grows by one axis at a time, every partial tuple extended by every
    element of the next pool. *)
Definition product {A} (pools : list (list A)) : list (list A) :=
  foldl (λ result pool, flat_map (λ x, map (λ y, (x ++ [y])%list) pool) result)
        [[]] pools.

(** [str(value)] for the values whose text does not depend on the float
    printing algorithm or on an object's address. *)
Definition py_str (v : pyval) : result string :=
  match v with
  | VNone => Ok "None"
  | VInt z => Ok (pretty z)
  | VStr s => Ok s
  | _ => Raise OutsideModel
  end.

Definition is_digit (c : ascii) : bool :=
  (48 <=? Ascii.nat_of_ascii c)%nat && (Ascii.nat_of_ascii c <=? 57)%nat.

Fixpoint all_chars (p : ascii → bool) (s : string) : bool :=
  match s with
  | "" => true
  | String c s' => p c && all_chars p s'
  end.

Fixpoint any_char (p : ascii → bool) (s : string) : bool :=
  match s with
  | "" => false
  | String c s' => p c || any_char p s'
  end.

(** The characters that start a conversion, a format specification, an
    attribute or index access or a nested field inside a replacement
    field. *)
Definition special_in_field (c : ascii) : bool :=
  bool_decide (c ∈ ["!"; ":"; "."; "["; "]"; "{"]%char).

(** One replacement field [{field}] of [str.format] with keywords [kw]: an empty or
    numeric field asks for a positional argument, and there is none; a
    name is looked up among the keywords. *)
Definition format_field (field : string) (kw : gmap string pyval)
  : result string :=
  if any_char special_in_field field then Raise OutsideModel
  else if all_chars is_digit field then Raise IndexError
  else match kw !! field with
       | Some v => py_str v
       | None => Raise KeyError
       end.

Definition result_app (a : result string) (b : result string)
  : result string :=
  match a with
  | Ok x => match b with Ok y => Ok (x ++ y) | Raise e => Raise e end
  | Raise e => Raise e
  end.

(** [template.format] with keywords [kw]: literal text, the escapes [{{] and [}}], and
    replacement fields. *)
Fixpoint format_text (template : string) (kw : gmap string pyval)
  : result string :=
  match template with
  | "" => Ok ""
  | String "{" (String "{" rest) => result_app (Ok "{") (format_text rest kw)
  | String "{" rest => format_in_field rest "" kw
  | String "}" (String "}" rest) => result_app (Ok "}") (format_text rest kw)
  | String "}" _ => Raise ValueError
  | String c rest => result_app (Ok (String c "")) (format_text rest kw)
  end
with format_in_field (template field : string) (kw : gmap string pyval)
  : result string :=
  match template with
  | "" => Raise ValueError
  | String "}" rest => result_app (format_field field kw) (format_text rest kw)
  | String c rest => format_in_field rest (field ++ String c "") kw
  end.

(** [{n: v for n, v in zip(names, parameter_values)}] *)
Definition dict_of (items : list (string * pyval)) : gmap string pyval :=
  foldl (λ d nv, <[nv.1 := nv.2]> d) ∅ items.

(** [FitParameters.expand_params].  The keyword arguments are an ordered
    list of axis name and values; an axis called like one of the named
    parameters cannot be bound by the call. *)
Definition expand_params (template : string) (args : list pyval)
    (kwargs : list (string * list pyval)) : M unit :=
  let names := kwargs.*1 in
  let values := kwargs.*2 in
  if bool_decide ("self" ∈ names ∨ "template" ∈ names) then raise TypeError
  else
    for_each (product values) (λ parameter_values,
      name ← lift (format_text template (dict_of (zip names parameter_values)));
      add_param name args).

(** ** Observables and categories *)

(** [np.min(values)] and [np.max(values)]; an empty sample has neither. *)
Definition np_min (values : list Qc) : result Qc :=
  match values with
  | [] => Raise ValueError
  | x :: xs => Ok (foldl (λ m y, if decide (y < m)%Qc then y else m) x xs)
  end.

Definition np_max (values : list Qc) : result Qc :=
  match values with
  | [] => Raise ValueError
  | x :: xs => Ok (foldl (λ m y, if decide (m < y)%Qc then y else m) x xs)
  end.

(** [FitParameters.add_observable] *)
Definition add_observable (name : string) (args : list pyval)
    (values : option (list Qc)) : M unit :=
  match values with
  | None =>
      match args with
      | [] => raise ConfigurationError
      | _ => add_param name args
      end
  | Some vs =>
      min ← lift (np_min vs);
      max ← lift (np_max vs);
      add_param name [VNumpy min; VNumpy max]
  end.

(** [pd.unique(values)]: the distinct values in order of first
    appearance. *)
Definition unique (values : list Z) : list Z :=
  foldl (λ seen v, if bool_decide (v ∈ seen) then seen else (seen ++ [v])%list)
        [] values.

(** The loop of [add_category]: one [defineType] per distinct value; the
    first that raises ends it. *)
Definition define_levels (levels : list Z) (cat : Engine.RooCategory)
  : result Engine.RooCategory :=
  foldl (λ acc val,
           match acc with
           | Ok c => Engine.defineType (pretty val) val c
           | Raise e => Raise e
           end)
        (Ok cat) levels.

(** [FitParameters.add_category], for a sample of integers.  The category
    enters the store with its levels defined; one that a raising
    [defineType] leaves behind is referred to by nothing. *)
Definition add_category (name : string) (values : list Z) : M unit :=
  cat ← lift (define_levels (unique values)
                (Engine.new_RooCategory name name));
  l ← alloc (ORooCategory cat);
  param_list_add name ;;
  __setattr__ name (VRef l).

(** ** Removal *)

(** [self.__dict__.pop(key, default_value)] *)
Definition dict_pop (key : string) (default_value : pyval) : M pyval :=
  λ st, match dict st !! key with
        | Some v => (Ok v, set_dict (delete key (dict st)) st)
        | None => (Ok default_value, st)
        end.

(** [self.param_list.remove(key)], for a key known to be in the set. *)
Definition param_list_remove (s : gset string) (key : string) : M unit :=
  modify (λ st,
    set_dict (<["param_list" := VNames (s ∖ {[key]})]> (dict st)) st).

(** [FitParameters.pop]: the name leaves the tracked set if it is there,
    and whatever the instance dictionary holds under it is taken out and
    returned. *)
Definition pop (key : string) (default_value : pyval) : M pyval :=
  s ← get_param_list TypeError;
  (if bool_decide (key ∈ s) then param_list_remove s key else mret tt) ;;
  dict_pop key default_value.

(** ** Export *)

(** One turn of the loop of [r]: a wrapper contributes its [var], a
    category itself, anything else nothing. *)
Definition r_step (st : state) (name : string)
    (acc : result (gmap string pyval)) : result (gmap string pyval) :=
  match acc with
  | Raise e => Raise e
  | Ok params =>
      match (getattr name st).1 with
      | Raise e => Raise e
      | Ok (VRef l) =>
          match heap st !! l with
          | Some (ORealVar vl) => Ok (<[name := VRef vl]> params)
          | Some (ORooCategory _) => Ok (<[name := VRef l]> params)
          | _ => Ok params
          end
      | Ok _ => Ok params
      end
  end.

(** The loop of [r] over the tracked names. *)
Definition r_loop (s : gset string) : M (gmap string pyval) :=
  λ st, (foldr (r_step st) (Ok ∅) (elements s), st).

(** The property [FitParameters.r]: the attributes of the bag it
    returns. *)
Definition r : M (gmap string pyval) :=
  s ← get_param_list TypeError;
  r_loop s.

(** ** Rendering *)

(** [target.isConstant()]: a wrapper hands the call on to its [var]; both
    engine primitives answer it; nothing else has the method. *)
Definition call_isConstant (target : pyval) : M bool :=
  λ st,
    match target with
    | VRef l =>
        match heap st !! l with
        | Some (ORealVar vl) =>
            match heap st !! vl with
            | Some (ORooRealVar v) => (Ok (Engine.isConstant v), st)
            | _ => (Raise OutsideModel, st)
            end
        | Some (ORooRealVar v) => (Ok (Engine.isConstant v), st)
        | Some (ORooCategory c) => (Ok (Engine.cat_constant c), st)
        | None => (Raise OutsideModel, st)
        end
    | _ => (Raise AttributeError, st)
    end.

(** [sorted(list(self.param_list))]: strings in the order of their
    characters' codes. *)
Definition str_le (a b : string) : Prop := String.leb a b = true.

#[global] Instance str_le_dec : RelDecision str_le :=
  λ a b, decide (String.leb a b = true).

Definition sorted (names : list string) : list string :=
  merge_sort str_le names.

Section Rendering.

(** The builtin float formatting [f'{x:.2g}']. *)
Variable format_2g : Qc → string.

(** What the loop of [__repr__] appends for one name.  The bounds are
    written when [type(parameter) == RooRealVar], the engine's class. *)
Definition repr_entry (p : string) : M string :=
  parameter ← getattr p;
  constant ← call_isConstant parameter;
  if (constant : bool) then mret (newline ++ p ++ tab ++ "const")
  else
    match parameter with
    | VRef l =>
        (λ st,
           match heap st !! l with
           | Some (ORooRealVar v) =>
               (Ok (newline ++ p ++ tab ++ format_2g (Engine.getMin v)
                            ++ tab ++ format_2g (Engine.getMax v)), st)
           | _ => (Ok (newline ++ p), st)
           end) : M string
    | _ => mret (newline ++ p)
    end.

Fixpoint repr_loop (names : list string) (text : string) : M string :=
  match names with
  | [] => mret text
  | p :: names' =>
      entry ← repr_entry p;
      repr_loop names' (text ++ entry)
  end.

(** [FitParameters.__repr__] *)
Definition __repr__ : M string :=
  s ← get_param_list TypeError;
  repr_loop (sorted (elements s))
    ("Parameter collection" ++ newline ++ pretty (size s) ++ " parameters:").

End Rendering.

(** ** Plotter *)

Module Plotter.

(** A numpy double, over exact arithmetic: a rational, or one of the
    values a division by zero produces. *)
Inductive npfloat :=
  | Finite (q : Qc)
  | PosInf
  | NegInf
  | NaN.

Definition is_finite (a : npfloat) : bool :=
  match a with
  | Finite _ => true
  | _ => false
  end.

(** [y / d] on numpy arrays does not raise: a zero divisor gives an
    infinity of the sign of [y], or [nan] for [0 / 0] (numpy reports
    both through a warning only). *)
Definition true_divide (y d : Qc) : npfloat :=
  if decide (d = 0%Qc) then
    if decide (0 < y)%Qc then PosInf
    else if decide (y < 0)%Qc then NegInf
    else NaN
  else Finite (y / d)%Qc.

Definition multiply (a : npfloat) (n : Qc) : npfloat :=
  match a with
  | Finite q => Finite (q * n)%Qc
  | PosInf =>
      if decide (0 < n)%Qc then PosInf
      else if decide (n < 0)%Qc then NegInf
      else NaN
  | NegInf =>
      if decide (0 < n)%Qc then NegInf
      else if decide (n < 0)%Qc then PosInf
      else NaN
  | NaN => NaN
  end.

(** [np.linspace(start, stop, num)]: [num] evenly spaced points, both
    ends included. *)
Definition linspace (start stop : Qc) (num : nat) : list Qc :=
  let step := ((stop - start) / Qc_of_Z (Z.of_nat num - 1))%Qc in
  map (λ i, (start + Qc_of_Z (Z.of_nat i) * step)%Qc) (seq 0 num).

(** [scipy.integrate.trapz(ys, xs)] *)
Fixpoint trapz (ys xs : list Qc) : Qc :=
  match xs, ys with
  | x0 :: ((x1 :: _) as xs'), y0 :: ((y1 :: _) as ys') =>
      ((x1 - x0) * (y1 + y0) / Qc_of_Z 2 + trapz ys' xs')%Qc
  | _, _ => 0%Qc
  end.

(** [Plotter.sample_pdf].  [interpolate] is the curve that [plotOn]
    computed before the loop; [variable] is the engine variable, whose
    value the loop leaves at the last sample point. *)
Definition sample_pdf (sampling_steps : nat) (interpolate : Qc → Qc)
    (variable : Engine.RooRealVar) (norm : option Qc)
  : result (list Qc * list npfloat) * Engine.RooRealVar :=
  let grid :=
    linspace (Engine.getMin variable) (Engine.getMax variable)
             sampling_steps in
  let variable' := foldl (λ v x, Engine.setVal x v) variable grid in
  let xs := grid in
  let ys := interpolate <$> grid in
  match norm with
  | None => (Ok (xs, Finite <$> ys), variable')
  | Some n =>
      let integral := trapz ys xs in
      (Ok (xs, (λ y, multiply (true_divide y integral) n) <$> ys),
       variable')
  end.

End Plotter.

(** ** Vocabulary of the statements *)

(** The set of tracked names, when [param_list] still holds one. *)
Definition tracked_names (st : state) : option (gset string) :=
  match dict st !! "param_list" with
  | Some (VNames s) => Some s
  | _ => None
  end.

(** [name] resolves to the wrapper at [l], which wraps the engine
    variable at [vl], whose current state is [v]. *)
Definition holds_scalar (st : state) (name : string) (l vl : loc)
    (v : Engine.RooRealVar) : Prop :=
  dict st !! name = Some (VRef l) ∧
  heap st !! l = Some (ORealVar vl) ∧
  heap st !! vl = Some (ORooRealVar v).

(** The engine primitive that [name] stands for: the [var] of a wrapper,
    or the category itself. *)
Definition primitive_of (st : state) (name : string) (prim : pyval) : Prop :=
  ∃ l, dict st !! name = Some (VRef l) ∧
       ((∃ vl, heap st !! l = Some (ORealVar vl) ∧ prim = VRef vl) ∨
        (∃ c, heap st !! l = Some (ORooCategory c) ∧ prim = VRef l)).

(** The state [add_param name args] leaves, [v] being the variable the
    engine built and [s] the names tracked before. *)
Definition added (name : string) (v : Engine.RooRealVar) (s : gset string)
    (st : state) : state :=
  let h := length (heap st) in
  let d := <["param_list" := VNames ({[name]} ∪ s)]> (dict st) in
  {| dict := <[name := VRef (S h)]> d;
     heap := heap st ++ [ORooRealVar v; ORealVar h];
     stdout := match d !! name with
               | Some _ => stdout st ++ [warning name]
               | None => stdout st
               end |}.

(** The Cartesian product in the words of the specification: axes in the
    given order, later axes varying fastest. *)
Fixpoint cartesian {A} (axes : list (list A)) : list (list A) :=
  match axes with
  | [] => [[]]
  | axis :: axes' =>
      flat_map (λ y, map (cons y) (cartesian axes')) axis
  end.

(** The names [expand_params] gives to the combinations, in order. *)
Definition expanded_names (template : string)
    (kwargs : list (string * list pyval)) : list (result string) :=
  map (λ combination,
         format_text template (dict_of (zip kwargs.*1 combination)))
      (cartesian kwargs.*2).

(** *** The claims that the code does not meet, as stated *)

(** A second [add_param] of a tracked scalar name with a numeric value
    changes the value of the entity that is there and keeps the entity and
    the number of tracked names. *)
Definition add_scalar_updates_in_place (st : state) (name : string)
    (x : pyval) : Prop :=
  ∀ s l vl v,
    tracked_names st = Some s → name ∈ s → holds_scalar st name l vl v →
    ∃ st' v',
      add_param name [x] st = (Ok tt, st') ∧
      holds_scalar st' name l vl v' ∧
      Some (Engine.getVal v') = as_double x ∧
      size <$> tracked_names st' = Some (size s).

(** A number: a builtin [int] or [float], or a numpy scalar. *)
Definition is_number (v : pyval) : bool :=
  match v with
  | VInt _ | VFloat _ | VNumpy _ => true
  | _ => false
  end.

(** Assigning to a tracked name returns; a number leaves the entity where
    it is and prints nothing, any other value takes the entity's place and
    a warning is printed. *)
Definition assignment_as_claimed (st : state) (name : string)
    (value : pyval) : Prop :=
  ∀ s current,
    tracked_names st = Some s → name ∈ s →
    dict st !! name = Some current →
    ∃ st',
      __setattr__ name value st = (Ok tt, st') ∧
      if is_number value
      then dict st' !! name = Some current ∧ stdout st' = stdout st
      else dict st' !! name = Some value ∧
           stdout st' = (stdout st ++ [warning name])%list.

(** With a normalisation target and a zero integral, the sampler
    raises. *)
Definition zero_integral_raises (sampling_steps : nat)
    (interpolate : Qc → Qc) (variable : Engine.RooRealVar) (norm : Qc)
  : Prop :=
  let xs := Plotter.linspace (Engine.getMin variable)
                             (Engine.getMax variable) sampling_steps in
  Plotter.trapz (interpolate <$> xs) xs = 0%Qc →
  ∃ e, (Plotter.sample_pdf sampling_steps interpolate variable (Some norm)).1
       = Raise e.

(** The entries of the exported view are the tracked names. *)
Definition export_covers_tracked (st : state) : Prop :=
  ∀ s, tracked_names st = Some s →
       ∃ view, r st = (Ok view, st) ∧ dom view = s.

(** ** Sample states *)

Definition half : Qc := Q2Qc (1 # 2).

(** [add_param('x', 1.0)] on a new collection. *)
Definition one_scalar : state :=
  (add_param "x" [VFloat (Qc_of_Z 1)] init).2.

(** [add_param('x', 0.5, 0.0, 1.0)] on a new collection. *)
Definition bounded_scalar : state :=
  (add_param "x" [VFloat half; VFloat (Qc_of_Z 0); VFloat (Qc_of_Z 1)] init).2.

(** [add_param('x', 1.0)], then the attribute assignment [x = 'oops']. *)
Definition clobbered : state :=
  (__setattr__ "x" (VStr "oops") one_scalar).2.

(** [add_param('x', 1.0)], then [add_category('a', [3, 1, 3])]. *)
Definition scalar_and_category : state :=
  (add_category "a" [3; 1; 3]%Z one_scalar).2.

(** [add_param('b', 0.5, 0.0, 1.0)], then [add_param('a', 1.0)]. *)
Definition two_scalars : state :=
  (add_param "a" [VFloat (Qc_of_Z 1)]
     (add_param "b" [VFloat half; VFloat (Qc_of_Z 0); VFloat (Qc_of_Z 1)]
        init).2).2.

(** A variable over [0, 1]. *)
Definition unit_interval : Engine.RooRealVar :=
  {| Engine.GetName := "x"; Engine.GetTitle := "x"; Engine.getVal := half;
     Engine.getMin := Qc_of_Z 0; Engine.getMax := Qc_of_Z 1;
     Engine.isConstant := false |}.

(** ** Pattern lookup *)

Section Matching.

(** The library function [fnmatch.fnmatch(name, pattern)]. *)
Variable fnmatch : string → string → bool.

(** The comprehension of [glob]: the names are tried in the order the set
    yields them, and only a name that matches is looked up. *)
Fixpoint glob_loop (names : list string) (expr : string) : M (list pyval) :=
  match names with
  | [] => mret []
  | p :: names' =>
      if fnmatch p expr then
        v ← getattr p;
        vs ← glob_loop names' expr;
        mret (v :: vs)
      else glob_loop names' expr
  end.

(** [FitParameters.glob] *)
Definition glob (expr : string) : M (list pyval) :=
  s ← get_param_list TypeError;
  glob_loop (elements s) expr.

End Matching.

(** ** Vocabulary of the further properties *)

(** Every tracked name has something stored under it. *)
Definition in_sync (st : state) : Prop :=
  ∃ s, tracked_names st = Some s ∧ ∀ n, n ∈ s → is_Some (dict st !! n).

(** What [__repr__] writes for a wrapped scalar called [p] whose variable
    is [v]. *)
Definition scalar_entry (p : string) (v : Engine.RooRealVar) : string :=
  if Engine.isConstant v then newline ++ p ++ tab ++ "const"
  else newline ++ p.

(** The first line and a half of [__repr__] for [n] tracked names. *)
Definition repr_header (n : nat) : string :=
  "Parameter collection" ++ newline ++ pretty n ++ " parameters:".

(** A template without braces. *)
Definition is_brace (c : ascii) : bool :=
  bool_decide (c ∈ ["{"; "}"]%char).

(** * Properties *)

(** ** Running the monad *)

Ltac run :=
  unfold mbind, M_bind, mret, M_ret, lift, raise, modify in *.

Lemma plain_not_reserved name : plain name = true → reserved name = false.
Proof.
  unfold plain. intros H. apply andb_true_iff in H as [H _].
  by apply negb_true_iff in H.
Qed.

Lemma plain_not_param_list name : plain name = true → name ≠ "param_list".
Proof.
  unfold plain. intros H Heq. subst name. discriminate H.
Qed.

Lemma tracked_names_Some st s :
  tracked_names st = Some s ↔ dict st !! "param_list" = Some (VNames s).
Proof.
  unfold tracked_names. split.
  - destruct (dict st !! "param_list") as [[]|]; congruence.
  - by intros ->.
Qed.

Lemma get_param_list_ok e st s :
  tracked_names st = Some s → get_param_list e st = (Ok s, st).
Proof.
  intros H%tracked_names_Some. unfold get_param_list, getattr. run.
  cbn. by rewrite H.
Qed.

Lemma add_tracked_name (name : string) (s : gset string) :
  name ∈ s → {[name]} ∪ s = s.
Proof. intros H. apply subseteq_union_1_L. by apply singleton_subseteq_l. Qed.

(** ** [add_param] *)

Lemma add_param_run name args st s v :
  reserved name = false →
  tracked_names st = Some s →
  Engine.new_RooRealVar name name args = Ok v →
  add_param name args st = (Ok tt, added name v s st).
Proof.
  intros Hres Hpl Hnew.
  unfold add_param, new_RealVar, param_list_add, alloc. run.
  rewrite Hnew. cbn.
  rewrite (get_param_list_ok _ _ s) by done. cbn.
  unfold __setattr__. rewrite Hres. cbn.
  unfold added. cbn.
  rewrite length_app, Nat.add_1_r. cbn. rewrite <- app_assoc. cbn.
  destruct (_ !! name); reflexivity.
Qed.

(** The store only grows: what was there stays as it was. *)
Lemma added_heap_old name v s st l o :
  heap st !! l = Some o → heap (added name v s st) !! l = Some o.
Proof. intros H. cbn. by apply lookup_app_l_Some. Qed.

Lemma added_holds_scalar name v s st :
  holds_scalar (added name v s st) name
               (S (length (heap st))) (length (heap st)) v.
Proof.
  unfold holds_scalar. cbn. split_and!.
  - by rewrite lookup_insert_eq.
  - rewrite lookup_app_r by lia.
    replace (S (length (heap st)) - length (heap st))%nat with 1%nat by lia.
    done.
  - rewrite lookup_app_r by lia. by rewrite Nat.sub_diag.
Qed.

Lemma added_tracked name v s st :
  name ≠ "param_list" →
  tracked_names (added name v s st) = Some ({[name]} ∪ s).
Proof.
  intros Hne. apply tracked_names_Some. cbn.
  rewrite lookup_insert_ne by done. by rewrite lookup_insert_eq.
Qed.

Lemma added_stdout_stored name v s st :
  is_Some (dict st !! name) →
  stdout (added name v s st) = (stdout st ++ [warning name])%list.
Proof.
  intros [cur Hcur]. cbn.
  destruct (decide (name = "param_list")) as [->|Hne].
  - by rewrite lookup_insert_eq.
  - rewrite lookup_insert_ne by done. by rewrite Hcur.
Qed.

Lemma added_stdout_fresh name v s st :
  name ≠ "param_list" → dict st !! name = None →
  stdout (added name v s st) = stdout st.
Proof.
  intros Hne Hcur. cbn. rewrite lookup_insert_ne by done. by rewrite Hcur.
Qed.

Lemma new_RooRealVar_value name title x q :
  as_double x = Some q →
  ∃ v, Engine.new_RooRealVar name title [x] = Ok v ∧
       Engine.getVal v = q ∧ Engine.isConstant v = true ∧
       Engine.GetName v = name.
Proof.
  intros Hx. unfold Engine.new_RooRealVar. cbn. rewrite Hx. eauto.
Qed.

Lemma new_RooRealVar_bounds name title lo hi :
  (lo <= hi)%Qc →
  ∃ v, Engine.new_RooRealVar name title [VNumpy lo; VNumpy hi] = Ok v ∧
       Engine.getMin v = lo ∧ Engine.getMax v = hi ∧
       Engine.isConstant v = false ∧ Engine.GetName v = name.
Proof.
  intros Hle. unfold Engine.new_RooRealVar. cbn.
  eexists. split; [reflexivity|]. cbn. split_and!; try done.
  destruct (decide (hi < lo)%Qc) as [Hlt|_]; [|done].
  by destruct (Qcle_not_lt _ _ Hle).
Qed.

Lemma one_scalar_eq :
  ∃ v, one_scalar = added "x" v ∅ init ∧ Engine.getVal v = Qc_of_Z 1.
Proof.
  destruct (new_RooRealVar_value "x" "x" (VFloat (Qc_of_Z 1)) (Qc_of_Z 1))
    as (v & Hv & Hval & _); [done|].
  exists v. split; [|done]. unfold one_scalar.
  by rewrite (add_param_run _ _ _ ∅ v).
Qed.

(** C1, as stated, fails: after [add_param('x', 1.0)] a second
    [add_param('x', 2.0)] does not keep the entity stored under [x]. *)
Lemma add_scalar_twice_replaces :
  ¬ add_scalar_updates_in_place one_scalar "x" (VFloat (Qc_of_Z 2)).
Proof.
  destruct one_scalar_eq as (v & Hst & _).
  intros H.
  destruct (H {["x"]} 1%nat 0%nat v) as (st' & v' & Hrun & Hsc & _).
  - rewrite Hst, added_tracked by done. f_equal; set_solver.
  - set_solver.
  - rewrite Hst. apply (added_holds_scalar "x" v ∅ init).
  - destruct (new_RooRealVar_value "x" "x" (VFloat (Qc_of_Z 2)) (Qc_of_Z 2))
      as (v2 & Hv2 & _); [done|].
    rewrite (add_param_run _ _ _ {["x"]} v2) in Hrun; [|done| |done].
    + injection Hrun as <-. destruct Hsc as (Hd & _).
      cbn in Hd. rewrite lookup_insert_eq in Hd.
      rewrite Hst in Hd. cbn in Hd. discriminate Hd.
    + rewrite Hst, added_tracked by done. f_equal; set_solver.
Qed.

(** C1, amended: a second [add_param] of a name that is tracked and stored
    builds a new parameter of the value given and stores it under the
    name in place of the entity that was there, which stays as it was; a
    warning is printed, and the tracked names are the same. *)
Theorem add_scalar_again_replaces st s name x q :
  plain name = true →
  tracked_names st = Some s →
  name ∈ s →
  is_Some (dict st !! name) →
  as_double x = Some q →
  ∃ st' l' vl' v',
    add_param name [x] st = (Ok tt, st') ∧
    holds_scalar st' name l' vl' v' ∧
    Engine.getVal v' = q ∧ Engine.isConstant v' = true ∧
    heap st !! l' = None ∧ heap st !! vl' = None ∧
    (∀ l o, heap st !! l = Some o → heap st' !! l = Some o) ∧
    stdout st' = (stdout st ++ [warning name])%list ∧
    tracked_names st' = Some s.
Proof.
  intros Hplain Hs Hin Hcur Hx.
  destruct (new_RooRealVar_value name name x q Hx) as (v & Hv & Hval & Hc & _).
  exists (added name v s st), (S (length (heap st))), (length (heap st)), v.
  split_and!.
  - apply add_param_run; auto using plain_not_reserved.
  - apply added_holds_scalar.
  - done.
  - done.
  - apply lookup_ge_None. lia.
  - apply lookup_ge_None. lia.
  - intros l o. apply added_heap_old.
  - by apply added_stdout_stored.
  - rewrite added_tracked by (by apply plain_not_param_list).
    by rewrite add_tracked_name.
Qed.

Lemma add_scalar_again_replaces_witness :
  plain "x" = true ∧
  tracked_names one_scalar = Some {["x"]} ∧
  ∃ st' l' vl' v',
    add_param "x" [VFloat (Qc_of_Z 2)] one_scalar = (Ok tt, st') ∧
    holds_scalar st' "x" l' vl' v' ∧
    Engine.getVal v' = Qc_of_Z 2 ∧ Engine.isConstant v' = true ∧
    heap one_scalar !! l' = None ∧ heap one_scalar !! vl' = None ∧
    (∀ l o, heap one_scalar !! l = Some o → heap st' !! l = Some o) ∧
    stdout st' = (stdout one_scalar ++ [warning "x"])%list ∧
    tracked_names st' = Some {["x"]}.
Proof.
  split; [reflexivity|]. split; [vm_compute; reflexivity|].
  apply (add_scalar_again_replaces one_scalar {["x"]} "x"
           (VFloat (Qc_of_Z 2)) (Qc_of_Z 2)).
  - reflexivity.
  - vm_compute; reflexivity.
  - apply elem_of_singleton. reflexivity.
  - vm_compute. eexists. reflexivity.
  - reflexivity.
Defined.

(** ** Attribute assignment *)

Lemma range_tolerance_pos : (0 < Engine.range_tolerance)%Qc.
Proof. reflexivity. Qed.

Lemma not_below lo x :
  (lo <= x)%Qc → ¬ (x < lo - Engine.range_tolerance)%Qc.
Proof.
  intros Hle Hlt.
  assert (Hstep : (lo - Engine.range_tolerance < lo)%Qc).
  { apply Qclt_minus_iff.
    replace (lo + - (lo - Engine.range_tolerance))%Qc
      with Engine.range_tolerance by ring.
    apply range_tolerance_pos. }
  apply (Qcle_not_lt lo (lo - Engine.range_tolerance)); [|done].
  apply Qclt_le_weak. by apply (Qcle_lt_trans _ x).
Qed.

Lemma not_above hi x :
  (x <= hi)%Qc → ¬ (hi + Engine.range_tolerance < x)%Qc.
Proof.
  intros Hle Hlt.
  assert (Hstep : (hi < hi + Engine.range_tolerance)%Qc).
  { apply Qclt_minus_iff.
    replace (hi + Engine.range_tolerance + - hi)%Qc
      with Engine.range_tolerance by ring.
    apply range_tolerance_pos. }
  apply (Qcle_not_lt (hi + Engine.range_tolerance) hi); [|done].
  apply Qclt_le_weak. by apply (Qclt_le_trans _ x).
Qed.

(** A value within the range is kept as it is. *)
Lemma clip_within lo hi x : Engine.within lo hi x → Engine.clip lo hi x = x.
Proof.
  intros [Hlo Hhi]. unfold Engine.clip.
  destruct (negb (Engine.is_infinite lo)
            && bool_decide (x < lo - Engine.range_tolerance)%Qc) eqn:Hlow.
  { apply andb_true_iff in Hlow as [Hfin Hlt%bool_decide_eq_true].
    apply negb_true_iff in Hfin. destruct Hlo as [Hinf|Hle]; [congruence|].
    by destruct (not_below lo x). }
  destruct (negb (Engine.is_infinite hi)
            && bool_decide (hi + Engine.range_tolerance < x)%Qc) eqn:Hhigh;
    [|done].
  apply andb_true_iff in Hhigh as [Hfin Hlt%bool_decide_eq_true].
  apply negb_true_iff in Hfin. destruct Hhi as [Hinf|Hle]; [congruence|].
  by destruct (not_above hi x).
Qed.



(** Assigning a value of another type to a name that holds anything. *)
Lemma setattr_other_type st name current value :
  reserved name = false →
  dict st !! name = Some current →
  is_int_or_float value = false →
  __setattr__ name value st
  = (Ok tt, set_dict (<[name := value]> (dict st)) (print (warning name) st)).
Proof.
  intros Hres Hd Hnum. unfold __setattr__. by rewrite Hres, Hd, Hnum.
Qed.


(** C2, as stated, fails: a numpy number assigned to the tracked scalar
    [x] does not update it in place, it takes its place. *)
Lemma assignment_of_numpy_number_replaces :
  ¬ assignment_as_claimed one_scalar "x" (VNumpy (Qc_of_Z 2)).
Proof.
  assert (Hd : dict one_scalar !! "x" = Some (VRef 1))
    by (vm_compute; reflexivity).
  intros H.
  destruct (H {["x"]} (VRef 1)) as (st' & Hrun & Hkept & _).
  - vm_compute. reflexivity.
  - apply elem_of_singleton. reflexivity.
  - exact Hd.
  - rewrite (setattr_other_type _ _ (VRef 1)) in Hrun by done.
    apply (f_equal snd) in Hrun. cbn [snd] in Hrun. subst st'.
    cbn [dict set_dict] in Hkept. rewrite lookup_insert_eq in Hkept.
    discriminate Hkept.
Qed.




(** ** The curve sampler *)

Section Sampler.
Import Plotter.

Lemma two_nonzero : Qc_of_Z 2 ≠ 0%Qc.
Proof. intros H. discriminate H. Qed.

Lemma linspace_length start stop num :
  length (linspace start stop num) = num.
Proof. unfold linspace. by rewrite length_map, length_seq. Qed.

(** The trapezoidal rule is linear in the ordinates. *)
Lemma trapz_scale c ys xs :
  trapz ((λ y, y * c)%Qc <$> ys) xs = (trapz ys xs * c)%Qc.
Proof.
  revert xs. induction ys as [|y0 ys IH]; intros xs.
  { destruct xs as [|? [|]]; cbn; ring. }
  destruct ys as [|y1 ys]; [destruct xs as [|? [|]]; cbn; ring|].
  destruct xs as [|x0 [|x1 xs]]; [cbn; ring..|].
  specialize (IH (x1 :: xs)).
  change (((x1 - x0) * (y1 * c + y0 * c) / Qc_of_Z 2
           + trapz ((λ y, y * c) <$> y1 :: ys) (x1 :: xs))%Qc
          = (((x1 - x0) * (y1 + y0) / Qc_of_Z 2
              + trapz (y1 :: ys) (x1 :: xs)) * c)%Qc).
  rewrite IH. field. apply two_nonzero.
Qed.

Lemma divide_nonzero y d :
  d ≠ 0%Qc → true_divide y d = Finite (y / d)%Qc.
Proof. intros H. unfold true_divide. by destruct (decide (d = 0%Qc)). Qed.

Lemma divide_zero_not_finite y n :
  is_finite (multiply (true_divide y 0%Qc) n) = false.
Proof.
  unfold true_divide, multiply.
  repeat (case_decide; try done).
Qed.

(** What the sampler returns without a target. *)
Lemma sample_pdf_plain steps interpolate variable :
  let xs := linspace (Engine.getMin variable) (Engine.getMax variable)
                     steps in
  (sample_pdf steps interpolate variable None).1
  = Ok (xs, Finite <$> (interpolate <$> xs)).
Proof. reflexivity. Qed.

End Sampler.

(** C3, as stated, fails: a curve that is zero everywhere, sampled at
    three points of [0, 1] with target 1, has integral zero, and the
    sampler returns. *)
Lemma zero_integral_returns :
  ¬ zero_integral_raises 3 (λ _, 0%Qc) unit_interval (Qc_of_Z 1).
Proof.
  intros H. destruct H as [e He].
  - apply Qc_is_canon. vm_compute. reflexivity.
  - unfold Plotter.sample_pdf in He. cbn [fst] in He. discriminate He.
Qed.

(** C3, amended: with a target and a zero integral the sampler does not
    raise; it returns the sample points and, for every one of them, a
    value that is not finite. *)
Theorem sample_pdf_zero_integral steps interpolate variable norm :
  let xs := Plotter.linspace (Engine.getMin variable)
                             (Engine.getMax variable) steps in
  Plotter.trapz (interpolate <$> xs) xs = 0%Qc →
  ∃ ys,
    (Plotter.sample_pdf steps interpolate variable (Some norm)).1
    = Ok (xs, ys) ∧
    length ys = steps ∧
    Forall (λ y, Plotter.is_finite y = false) ys.
Proof.
  intros xs Hzero.
  eexists. split; [reflexivity|]. fold xs. rewrite Hzero. split.
  - unfold xs. by rewrite !length_map, linspace_length.
  - apply Forall_fmap, Forall_forall. intros y _.
    apply divide_zero_not_finite.
Qed.

Lemma sample_pdf_zero_integral_witness :
  ∃ ys,
    (Plotter.sample_pdf 3 (λ _, 0%Qc) unit_interval (Some (Qc_of_Z 1))).1
    = Ok (Plotter.linspace (Qc_of_Z 0) (Qc_of_Z 1) 3, ys) ∧
    length ys = 3%nat ∧
    Forall (λ y, Plotter.is_finite y = false) ys.
Proof.
  apply (sample_pdf_zero_integral 3 (λ _, 0%Qc) unit_interval (Qc_of_Z 1)).
  apply Qc_is_canon. vm_compute. reflexivity.
Defined.

(** C9: with a target and a non-zero integral of the sampled curve, the
    sampler returns the sample points and, for each of them, the curve's
    value there divided by that integral and multiplied by the target,
    all finite; the trapezoidal integral of these ordinates over the
    sample points is the target, over exact arithmetic. *)
Theorem sample_pdf_normalised steps interpolate variable norm :
  let xs := Plotter.linspace (Engine.getMin variable)
                             (Engine.getMax variable) steps in
  let integral := Plotter.trapz (interpolate <$> xs) xs in
  let ys := (λ x, interpolate x / integral * norm)%Qc <$> xs in
  integral ≠ 0%Qc →
  (Plotter.sample_pdf steps interpolate variable (Some norm)).1
  = Ok (xs, Plotter.Finite <$> ys) ∧
  length xs = steps ∧
  length ys = steps ∧
  Plotter.trapz ys xs = norm.
Proof.
  intros xs integral ys Hnz.
  assert (Hys : ys = (λ y, y * (norm / integral))%Qc <$> (interpolate <$> xs)).
  { unfold ys. rewrite <- list_fmap_compose.
    apply list_fmap_ext. intros _ x _. cbn. by field. }
  split_and!.
  - unfold Plotter.sample_pdf. cbn [fst]. fold xs. fold integral.
    do 2 f_equal. unfold ys. rewrite <- !list_fmap_compose.
    apply list_fmap_ext. intros _ x _. cbn.
    rewrite divide_nonzero by done. reflexivity.
  - apply linspace_length.
  - unfold ys, xs. by rewrite length_map, linspace_length.
  - rewrite Hys, trapz_scale. fold integral. by field.
Qed.

Lemma sample_pdf_normalised_witness :
  let xs := [Qc_of_Z 0; half; Qc_of_Z 1] in
  let ys := [Qc_of_Z 0; Qc_of_Z 2; Qc_of_Z 4] in
  (Plotter.sample_pdf 3 (λ x, x) unit_interval (Some (Qc_of_Z 2))).1
  = Ok (xs, Plotter.Finite <$> ys) ∧
  Plotter.trapz ys xs = Qc_of_Z 2.
Proof.
  destruct (sample_pdf_normalised 3 (λ x, x) unit_interval (Qc_of_Z 2))
    as (Hrun & _ & _ & Harea).
  { intros H. apply (f_equal this) in H. vm_compute in H. discriminate H. }
  assert (Hxs : Plotter.linspace (Engine.getMin unit_interval)
                  (Engine.getMax unit_interval) 3
                = [Qc_of_Z 0; half; Qc_of_Z 1]).
  { unfold Plotter.linspace. cbn [map seq].
    repeat f_equal; apply Qc_is_canon; vm_compute; reflexivity. }
  rewrite Hxs in Hrun, Harea.
  assert (Hys : (λ x, x / Plotter.trapz (id <$> [Qc_of_Z 0; half; Qc_of_Z 1])
                            [Qc_of_Z 0; half; Qc_of_Z 1] * Qc_of_Z 2)%Qc
                <$> [Qc_of_Z 0; half; Qc_of_Z 1]
                = [Qc_of_Z 0; Qc_of_Z 2; Qc_of_Z 4]).
  { cbn [fmap list_fmap].
    repeat f_equal; apply Qc_is_canon; vm_compute; reflexivity. }
  change ((λ x : Qc, x) <$> [Qc_of_Z 0; half; Qc_of_Z 1])
    with (id <$> [Qc_of_Z 0; half; Qc_of_Z 1]) in Hrun, Harea.
  rewrite Hys in Hrun, Harea. by split.
Defined.

(** ** Rendering *)

(** For a wrapped scalar the loop of [__repr__] writes the name and, if
    the variable is constant, [const]; the comparison of the wrapper's
    type with the engine's class fails, so the bounds are never
    written. *)
Lemma repr_entry_wrapped format_2g st p l vl v :
  reserved p = false →
  holds_scalar st p l vl v →
  repr_entry format_2g p st
  = (Ok (if Engine.isConstant v then newline ++ p ++ tab ++ "const"
         else newline ++ p), st).
Proof.
  intros Hres (Hd & Hl & Hvl).
  unfold repr_entry, getattr, call_isConstant. run.
  rewrite Hres, Hd, Hl, Hvl.
  destruct (Engine.isConstant v); [done|]. by rewrite Hl.
Qed.

(** The branch is live for an engine variable stored without the
    wrapper. *)
Lemma repr_entry_engine_variable format_2g st p l v :
  reserved p = false →
  dict st !! p = Some (VRef l) →
  heap st !! l = Some (ORooRealVar v) →
  Engine.isConstant v = false →
  repr_entry format_2g p st
  = (Ok (newline ++ p ++ tab ++ format_2g (Engine.getMin v)
                 ++ tab ++ format_2g (Engine.getMax v)), st).
Proof.
  intros Hres Hd Hl Hc.
  unfold repr_entry, getattr, call_isConstant. run.
  by rewrite Hres, Hd, Hl, Hc, Hl.
Qed.

(** C4 at the failing input: after [add_param('x', 0.5, 0.0, 1.0)] the
    variable is not constant and has the bounds 0 and 1, and the rendering
    is the header and the bare name. *)
Theorem repr_omits_bounds format_2g :
  (∃ l vl v, holds_scalar bounded_scalar "x" l vl v ∧
             Engine.isConstant v = false ∧
             Engine.getMin v = Qc_of_Z 0 ∧ Engine.getMax v = Qc_of_Z 1) ∧
  (__repr__ format_2g bounded_scalar).1
  = Ok ("Parameter collection" ++ newline ++ "1 parameters:" ++ newline ++ "x").
Proof.
  split.
  - exists 1%nat, 0%nat. eexists. split; [|split_and!].
    + unfold holds_scalar. split_and!; vm_compute; reflexivity.
    + reflexivity.
    + reflexivity.
    + reflexivity.
  - vm_compute. reflexivity.
Qed.

(** ** Observables *)

Lemma np_min_fold (xs : list Qc) (m : Qc) :
  let lo := foldl (λ m y, if decide (y < m)%Qc then y else m) m xs in
  lo ∈ m :: xs ∧ (lo <= m)%Qc ∧ ∀ y, y ∈ xs → (lo <= y)%Qc.
Proof.
  revert m. induction xs as [|x xs IH]; intros m; cbn.
  - split_and!; [left|apply Qcle_refl|]. intros y Hy. inversion Hy.
  - specialize (IH (if decide (x < m)%Qc then x else m)).
    cbn in IH. destruct IH as (Hin & Hle & Hall).
    case_decide as Hlt.
    + split_and!.
      * right. done.
      * eapply Qcle_trans; [exact Hle|]. by apply Qclt_le_weak.
      * intros y [->|Hy]%elem_of_cons; auto.
    + apply Qcnot_lt_le in Hlt. split_and!.
      * apply elem_of_cons in Hin as [->|Hin]; [left|right; by right].
      * done.
      * intros y [->|Hy]%elem_of_cons; [|auto].
        by eapply Qcle_trans.
Qed.

Lemma np_max_fold (xs : list Qc) (m : Qc) :
  let hi := foldl (λ m y, if decide (m < y)%Qc then y else m) m xs in
  hi ∈ m :: xs ∧ (m <= hi)%Qc ∧ ∀ y, y ∈ xs → (y <= hi)%Qc.
Proof.
  revert m. induction xs as [|x xs IH]; intros m; cbn.
  - split_and!; [left|apply Qcle_refl|]. intros y Hy. inversion Hy.
  - specialize (IH (if decide (m < x)%Qc then x else m)).
    cbn in IH. destruct IH as (Hin & Hle & Hall).
    case_decide as Hlt.
    + split_and!.
      * right. done.
      * eapply Qcle_trans; [|exact Hle]. by apply Qclt_le_weak.
      * intros y [->|Hy]%elem_of_cons; auto.
    + apply Qcnot_lt_le in Hlt. split_and!.
      * apply elem_of_cons in Hin as [->|Hin]; [left|right; by right].
      * done.
      * intros y [->|Hy]%elem_of_cons; [|auto].
        by eapply Qcle_trans.
Qed.

Lemma np_min_spec vs :
  vs ≠ [] →
  ∃ lo, np_min vs = Ok lo ∧ lo ∈ vs ∧ ∀ y, y ∈ vs → (lo <= y)%Qc.
Proof.
  destruct vs as [|x xs]; [done|]. intros _.
  destruct (np_min_fold xs x) as (Hin & Hle & Hall).
  eexists. split; [reflexivity|]. split; [done|].
  intros y [->|Hy]%elem_of_cons; auto.
Qed.

Lemma np_max_spec vs :
  vs ≠ [] →
  ∃ hi, np_max vs = Ok hi ∧ hi ∈ vs ∧ ∀ y, y ∈ vs → (y <= hi)%Qc.
Proof.
  destruct vs as [|x xs]; [done|]. intros _.
  destruct (np_max_fold xs x) as (Hin & Hle & Hall).
  eexists. split; [reflexivity|]. split; [done|].
  intros y [->|Hy]%elem_of_cons; auto.
Qed.

(** With a sample, [add_observable] is [add_param] with the bounds of the
    sample, whatever the construction arguments. *)
Lemma add_observable_sample name args vs lo hi st :
  np_min vs = Ok lo → np_max vs = Ok hi →
  add_observable name args (Some vs) st
  = add_param name [VNumpy lo; VNumpy hi] st.
Proof.
  intros Hlo Hhi. unfold add_observable. run. by rewrite Hlo, Hhi.
Qed.

Lemma new_RooRealVar_raises name title args e :
  Engine.new_RooRealVar name title args = Raise e → e = TypeError.
Proof.
  unfold Engine.new_RooRealVar.
  repeat case_match; congruence.
Qed.

Lemma add_param_raises name args st e :
  (add_param name args st).1 = Raise e →
  e = TypeError ∨ e = AttributeError ∨ e = OutsideModel.
Proof.
  unfold add_param, new_RealVar, param_list_add, get_param_list, getattr,
    alloc, __setattr__. run. cbn.
  destruct (Engine.new_RooRealVar name name args) as [v|e'] eqn:Hnew; cbn.
  - repeat (case_match; cbn; simplify_eq; auto);
      intros [= <-]; auto.
  - intros [= ->]. left. by eapply new_RooRealVar_raises.
Qed.

(** With a sample that is not empty, [add_observable] succeeds and the
    name holds a scalar with the bounds of the sample. *)
Lemma add_observable_sample_run name args vs st s :
  vs ≠ [] → reserved name = false → tracked_names st = Some s →
  ∃ lo hi v,
    np_min vs = Ok lo ∧ np_max vs = Ok hi ∧
    Engine.new_RooRealVar name name [VNumpy lo; VNumpy hi] = Ok v ∧
    Engine.getMin v = lo ∧ Engine.getMax v = hi ∧
    add_observable name args (Some vs) st = (Ok tt, added name v s st).
Proof.
  intros Hvs Hres Hs.
  destruct (np_min_spec vs Hvs) as (lo & Hlo & _ & Hleast).
  destruct (np_max_spec vs Hvs) as (hi & Hhi & Hin & _).
  destruct (new_RooRealVar_bounds name name lo hi (Hleast hi Hin))
    as (v & Hv & Hmin & Hmax & _).
  exists lo, hi, v. split_and!; try done.
  rewrite (add_observable_sample _ _ _ lo hi) by done.
  by apply add_param_run.
Qed.

(** C5: [add_observable] raises [ConfigurationError] exactly when there
    is neither a sample nor a construction argument; with a sample that
    is not empty it succeeds and the name holds a scalar whose bounds are
    the least and the greatest value of the sample; for the sample
    3, 1, 4, 1, 5 these are 1 and 5. *)
Theorem add_observable_spec :
  (∀ name args values st,
     (add_observable name args values st).1 = Raise ConfigurationError
     ↔ values = None ∧ args = []) ∧
  (∀ name args vs st s,
     vs ≠ [] → reserved name = false → tracked_names st = Some s →
     ∃ lo hi st' l vl v,
       (lo ∈ vs ∧ ∀ y, y ∈ vs → (lo <= y)%Qc) ∧
       (hi ∈ vs ∧ ∀ y, y ∈ vs → (y <= hi)%Qc) ∧
       add_observable name args (Some vs) st = (Ok tt, st') ∧
       holds_scalar st' name l vl v ∧
       Engine.getMin v = lo ∧ Engine.getMax v = hi) ∧
  (∃ st' l vl v,
     add_observable "x" [] (Some (Qc_of_Z <$> [3; 1; 4; 1; 5]%Z)) init
     = (Ok tt, st') ∧
     holds_scalar st' "x" l vl v ∧
     Engine.getMin v = Qc_of_Z 1 ∧ Engine.getMax v = Qc_of_Z 5).
Proof.
  split_and!.
  - intros name args values st. split.
    + intros Hraise. destruct values as [vs|].
      * exfalso. destruct vs as [|x xs]; [discriminate Hraise|].
        unfold add_observable in Hraise. run. cbn in Hraise.
        apply add_param_raises in Hraise as [?|[?|?]]; discriminate.
      * split; [done|]. destruct args as [|a args]; [done|].
        exfalso. cbn in Hraise.
        apply add_param_raises in Hraise as [?|[?|?]]; discriminate.
    + by intros [-> ->].
  - intros name args vs st s Hvs Hres Hs.
    destruct (np_min_spec vs Hvs) as (lo & Hlo & Hlo_in & Hlo_le).
    destruct (np_max_spec vs Hvs) as (hi & Hhi & Hhi_in & Hhi_le).
    destruct (add_observable_sample_run name args vs st s Hvs Hres Hs)
      as (lo' & hi' & v & Hlo' & Hhi' & _ & Hmin & Hmax & Hrun).
    rewrite Hlo in Hlo'. rewrite Hhi in Hhi'.
    injection Hlo' as <-. injection Hhi' as <-.
    exists lo, hi, (added name v s st), (S (length (heap st))),
      (length (heap st)), v.
    split_and!; try done. apply added_holds_scalar.
  - destruct (add_observable_sample_run "x" []
                (Qc_of_Z <$> [3; 1; 4; 1; 5]%Z) init ∅)
      as (lo & hi & v & Hlo & Hhi & _ & Hmin & Hmax & Hrun); try done.
    exists (added "x" v ∅ init), 1%nat, 0%nat, v.
    split_and!; [done|apply (added_holds_scalar "x" v ∅ init)| |].
    + rewrite Hmin. vm_compute in Hlo. by injection Hlo as <-.
    + rewrite Hmax. vm_compute in Hhi. by injection Hhi as <-.
Qed.

Lemma add_observable_spec_witness :
  ∃ lo hi st' l vl v,
    (lo ∈ [half; Qc_of_Z 2] ∧ ∀ y, y ∈ [half; Qc_of_Z 2] → (lo <= y)%Qc) ∧
    (hi ∈ [half; Qc_of_Z 2] ∧ ∀ y, y ∈ [half; Qc_of_Z 2] → (y <= hi)%Qc) ∧
    add_observable "mass" [VInt 7] (Some [half; Qc_of_Z 2]) one_scalar
    = (Ok tt, st') ∧
    holds_scalar st' "mass" l vl v ∧
    Engine.getMin v = lo ∧ Engine.getMax v = hi.
Proof.
  destruct add_observable_spec as (_ & Hsample & _).
  apply (Hsample "mass" [VInt 7] [half; Qc_of_Z 2] one_scalar {["x"]}).
  - done.
  - reflexivity.
  - vm_compute. reflexivity.
Defined.



(** ** Removal *)

(** C8: [pop] of a name that is not tracked and under which nothing is
    stored returns the default and leaves the state as it is; [pop] of a
    tracked name returns the parameter stored under it, takes the name
    out of the tracked set, which loses exactly one element, and out of
    the dictionary. *)
Theorem pop_spec st s key default_value :
  tracked_names st = Some s →
  (key ∉ s → dict st !! key = None →
   pop key default_value st = (Ok default_value, st)) ∧
  (∀ l, key ∈ s → dict st !! key = Some (VRef l) →
   ∃ st',
     pop key default_value st = (Ok (VRef l), st') ∧
     tracked_names st' = Some (s ∖ {[key]}) ∧
     (key ∉ s ∖ {[key]}) ∧
     S (size (s ∖ {[key]})) = size s ∧
     dict st' !! key = None ∧
     (∀ other, other ≠ key → other ≠ "param_list" →
               dict st' !! other = dict st !! other) ∧
     heap st' = heap st ∧ stdout st' = stdout st).
Proof.
  intros Hs. split.
  - intros Hout Hnone. unfold pop. run.
    rewrite (get_param_list_ok _ _ s) by done.
    rewrite bool_decide_eq_false_2 by done.
    unfold dict_pop. by rewrite Hnone.
  - intros l Hin Hkey.
    assert (Hne : key ≠ "param_list").
    { intros ->. apply tracked_names_Some in Hs. congruence. }
    exists (set_dict (delete key (<["param_list" := VNames (s ∖ {[key]})]>
                                   (dict st))) st).
    split_and!.
    + unfold pop. run.
      rewrite (get_param_list_ok _ _ s) by done.
      rewrite bool_decide_eq_true_2 by done.
      unfold param_list_remove, dict_pop. run. cbn.
      rewrite lookup_insert_ne by done. by rewrite Hkey.
    + apply tracked_names_Some. cbn.
      rewrite lookup_delete_ne by done. by rewrite lookup_insert_eq.
    + rewrite elem_of_difference, elem_of_singleton. by intros [_ []].
    + rewrite size_difference by (by apply singleton_subseteq_l).
      rewrite size_singleton.
      assert (size s ≠ 0%nat); [|lia].
      intros Hz. apply size_empty_inv in Hz. apply (Hz key) in Hin.
      by apply not_elem_of_empty in Hin.
    + cbn. by rewrite lookup_delete_eq.
    + intros other Ho Hpl. cbn.
      rewrite lookup_delete_ne by done. by rewrite lookup_insert_ne.
    + done.
    + done.
Qed.

Lemma pop_spec_witness :
  tracked_names one_scalar = Some {["x"]} ∧
  pop "y" VNone one_scalar = (Ok VNone, one_scalar) ∧
  ∃ st', pop "x" VNone one_scalar = (Ok (VRef 1), st') ∧
         tracked_names st' = Some ({["x"]} ∖ {["x"]}).
Proof.
  assert (Hs : tracked_names one_scalar = Some {["x"]})
    by (vm_compute; reflexivity).
  split; [exact Hs|].
  destruct (pop_spec one_scalar {["x"]} "y" VNone Hs) as [Habsent _].
  destruct (pop_spec one_scalar {["x"]} "x" VNone Hs) as [_ Hpresent].
  split.
  - apply Habsent.
    + apply not_elem_of_singleton. discriminate.
    + vm_compute. reflexivity.
  - destruct (Hpresent 1%nat) as (st' & Hrun & Ht & _).
    + apply elem_of_singleton. reflexivity.
    + vm_compute. reflexivity.
    + exists st'. auto.
Defined.

(** ** Export *)

Lemma primitive_of_functional st name p1 p2 :
  primitive_of st name p1 → primitive_of st name p2 → p1 = p2.
Proof.
  intros (l1 & Hd1 & H1) (l2 & Hd2 & H2).
  assert (l1 = l2) as <- by congruence.
  destruct H1 as [(vl1 & Hh1 & ->)|(c1 & Hh1 & ->)],
           H2 as [(vl2 & Hh2 & ->)|(c2 & Hh2 & ->)]; congruence.
Qed.

(** One turn of the loop of [r] on a name that is stored. *)
Lemma r_step_stored st name v view :
  reserved name = false →
  dict st !! name = Some v →
  ∃ view', r_step st name (Ok view) = Ok view' ∧
    ((∃ prim, primitive_of st name prim ∧ view' = <[name := prim]> view) ∨
     ((∀ prim, ¬ primitive_of st name prim) ∧ view' = view)).
Proof.
  intros Hres Hd. unfold r_step, getattr. rewrite Hres, Hd. cbn.
  destruct v as [| | | | |l|];
    try (eexists; split; [reflexivity|]; right; split; [|done];
         intros prim (l' & Hd' & _); congruence).
  destruct (heap st !! l) as [[v|vl|c]|] eqn:Hl.
  - eexists; split; [reflexivity|]. right. split; [|done].
    intros prim (l' & Hd' & [(vl & Hh & _)|(c & Hh & _)]); congruence.
  - eexists; split; [reflexivity|]. left. exists (VRef vl). split; [|done].
    exists l. split; [done|]. left. eauto.
  - eexists; split; [reflexivity|]. left. exists (VRef l). split; [|done].
    exists l. split; [done|]. right. eauto.
  - eexists; split; [reflexivity|]. right. split; [|done].
    intros prim (l' & Hd' & [(vl & Hh & _)|(c & Hh & _)]); congruence.
Qed.

(** The loop of [r] over names that are all stored. *)
Lemma r_fold st (names : list string) :
  (∀ n, n ∈ names → reserved n = false ∧ is_Some (dict st !! n)) →
  ∃ view, foldr (r_step st) (Ok ∅) names = Ok view ∧
    ∀ n prim, view !! n = Some prim ↔ n ∈ names ∧ primitive_of st n prim.
Proof.
  induction names as [|n0 names IH]; intros Hall.
  - exists ∅. split; [done|]. intros n prim. rewrite lookup_empty.
    split; [done|]. intros [Hin _]. inversion Hin.
  - destruct IH as (view & Hfold & Hview).
    { intros n Hn. apply Hall. by right. }
    destruct (Hall n0) as [Hres [v Hd]]; [left|].
    cbn. rewrite Hfold.
    destruct (r_step_stored st n0 v view Hres Hd)
      as (view' & Hstep & [(p0 & Hp0 & ->)|(Hnone & ->)]).
    + exists (<[n0 := p0]> view). split; [done|]. intros n prim.
      destruct (decide (n = n0)) as [->|Hne].
      * rewrite lookup_insert_eq. split.
        -- intros [= <-]. split; [left|done].
        -- intros [_ Hp]. f_equal. by eapply primitive_of_functional.
      * rewrite lookup_insert_ne by done. rewrite Hview.
        rewrite elem_of_cons. split.
        -- intros [Hin Hp]. auto.
        -- intros [[Heq|Hin] Hp]; [done|auto].
    + exists view. split; [done|]. intros n prim. rewrite Hview.
      rewrite elem_of_cons. split.
      * intros [Hin Hp]. auto.
      * intros [[->|Hin] Hp]; [by apply Hnone in Hp|done].
Qed.

Lemma r_run st s :
  tracked_names st = Some s →
  (∀ n, n ∈ s → reserved n = false ∧ is_Some (dict st !! n)) →
  ∃ view, r st = (Ok view, st) ∧
    ∀ n prim, view !! n = Some prim ↔ n ∈ s ∧ primitive_of st n prim.
Proof.
  intros Hs Hall.
  destruct (r_fold st (elements s)) as (view & Hfold & Hview).
  { intros n Hn%elem_of_elements. by apply Hall. }
  exists view. split.
  - unfold r. run. rewrite (get_param_list_ok _ _ s) by done.
    unfold r_loop. by rewrite Hfold.
  - intros n prim. rewrite Hview. by rewrite elem_of_elements.
Qed.

(** C7, as stated, fails: after the entity of the tracked name [x] was
    replaced by a string, the view has no entry for [x]. *)
Lemma export_omits_replaced : ¬ export_covers_tracked clobbered.
Proof.
  assert (Hs : tracked_names clobbered = Some {["x"]})
    by (vm_compute; reflexivity).
  intros H. destruct (H {["x"]} Hs) as (view & Hrun & Hdom).
  destruct (r_run clobbered {["x"]} Hs) as (view' & Hrun' & Hview).
  { intros n ->%elem_of_singleton. split; [reflexivity|].
    vm_compute. eexists. reflexivity. }
  rewrite Hrun' in Hrun.
  assert (Hsame : Ok view' = Ok view) by exact (f_equal fst Hrun).
  injection Hsame as ->.
  assert (Hin : "x" ∈ dom view) by (rewrite Hdom; by apply elem_of_singleton).
  apply elem_of_dom in Hin as [prim Hprim].
  apply Hview in Hprim as [_ (l & Hd & _)].
  vm_compute in Hd. discriminate Hd.
Qed.

(** C7, amended: when every tracked name is stored, the view has exactly
    one entry for every tracked name that holds a scalar or a category,
    the engine primitive behind it, and no other entry; if all tracked
    names hold one, the entries are the tracked names. *)
Theorem export_entries st s :
  tracked_names st = Some s →
  (∀ n, n ∈ s → reserved n = false ∧ is_Some (dict st !! n)) →
  ∃ view,
    r st = (Ok view, st) ∧
    (∀ n prim, view !! n = Some prim ↔ n ∈ s ∧ primitive_of st n prim) ∧
    ((∀ n, n ∈ s → ∃ prim, primitive_of st n prim) → dom view = s).
Proof.
  intros Hs Hall.
  destruct (r_run st s Hs Hall) as (view & Hrun & Hview).
  exists view. split_and!; [done..|].
  intros Hparams. apply set_eq. intros n. rewrite elem_of_dom. split.
  - intros [prim Hprim]. by apply Hview in Hprim as [Hin _].
  - intros Hin. destruct (Hparams n Hin) as [prim Hprim].
    exists prim. by apply Hview.
Qed.

Lemma export_entries_witness :
  ∃ view,
    r scalar_and_category = (Ok view, scalar_and_category) ∧
    view !! "x" = Some (VRef 0) ∧
    view !! "a" = Some (VRef 2) ∧
    dom view = {["x"; "a"]}.
Proof.
  destruct (export_entries scalar_and_category {["x"; "a"]})
    as (view & Hrun & Hview & Hdom).
  - vm_compute. reflexivity.
  - intros n [->%elem_of_singleton| ->%elem_of_singleton]%elem_of_union.
    + split; [reflexivity|]. vm_compute. eexists. reflexivity.
    + split; [reflexivity|]. vm_compute. eexists. reflexivity.
  - assert (Hx : primitive_of scalar_and_category "x" (VRef 0)).
    { exists 1%nat. split; [vm_compute; reflexivity|].
      left. exists 0%nat. split; [vm_compute; reflexivity|reflexivity]. }
    assert (Ha : primitive_of scalar_and_category "a" (VRef 2)).
    { exists 2%nat. split; [vm_compute; reflexivity|].
      right. eexists. split; [vm_compute; reflexivity|reflexivity]. }
    exists view. split_and!.
    + exact Hrun.
    + apply Hview. split; [|exact Hx].
      apply elem_of_union. left. by apply elem_of_singleton.
    + apply Hview. split; [|exact Ha].
      apply elem_of_union. right. by apply elem_of_singleton.
    + apply Hdom.
      intros n [->%elem_of_singleton| ->%elem_of_singleton]%elem_of_union;
        eauto.
Defined.

(** ** Template expansion *)

Lemma product_fold {A} (pools : list (list A)) (acc : list (list A)) :
  foldl (λ result pool, flat_map (λ x, map (λ y, (x ++ [y])%list) pool) result)
        acc pools
  = flat_map (λ x, map (app x) (cartesian pools)) acc.
Proof.
  revert acc. induction pools as [|pool pools IH]; intros acc; cbn.
  - induction acc as [|x acc IHacc]; cbn; [done|].
    rewrite <- IHacc. by rewrite app_nil_r.
  - rewrite IH. clear IH.
    induction acc as [|x acc IHacc]; cbn; [done|].
    rewrite flat_map_app, IHacc. f_equal. clear IHacc.
    induction pool as [|y pool IHpool]; cbn; [done|].
    rewrite map_app, <- IHpool. f_equal.
    rewrite !map_map. apply map_ext. intros z.
    by rewrite <- app_assoc.
Qed.

(** The library's product enumerates the combinations as the
    specification says: axes in the given order, later axes fastest. *)
Lemma product_cartesian {A} (pools : list (list A)) :
  product pools = cartesian pools.
Proof.
  unfold product. rewrite product_fold. cbn. rewrite app_nil_r.
  rewrite map_ext with (g := id); [apply map_id|done].
Qed.

Lemma cartesian_length {A} (axes : list (list A)) :
  length (cartesian axes) = foldr (λ axis k, length axis * k)%nat 1%nat axes.
Proof.
  induction axes as [|axis axes IH]; cbn; [done|].
  rewrite <- IH. clear IH.
  induction axis as [|y axis IHaxis]; cbn; [done|].
  by rewrite length_app, length_map, IHaxis.
Qed.

(** The loop of [expand_params], over combinations whose names are
    [names]: every name is added in turn. *)
Lemma expand_loop template args keys combos names : ∀ st s,
  Forall2 (λ combination n,
             format_text template (dict_of (zip keys combination)) = Ok n)
          combos names →
  Forall (λ n, plain n = true) names →
  (∀ n, ∃ v, Engine.new_RooRealVar n n args = Ok v) →
  tracked_names st = Some s →
  ∃ st',
    for_each combos (λ parameter_values,
      name ← lift (format_text template
                     (dict_of (zip keys parameter_values)));
      add_param name args) st = (Ok tt, st') ∧
    tracked_names st' = Some (list_to_set names ∪ s) ∧
    length (heap st') = (length (heap st) + 2 * length names)%nat ∧
    (∀ l o, heap st !! l = Some o → heap st' !! l = Some o) ∧
    (∀ n, n ∉ names → n ≠ "param_list" → dict st' !! n = dict st !! n) ∧
    (∀ k n, names !! k = Some n →
       ∃ v, Engine.new_RooRealVar n n args = Ok v ∧
            heap st' !! (length (heap st) + 2 * k)%nat
            = Some (ORooRealVar v) ∧
            heap st' !! (length (heap st) + 2 * k + 1)%nat
            = Some (ORealVar (length (heap st) + 2 * k))) ∧
    (∀ n, n ∈ names →
       ∃ l vl v, holds_scalar st' n l vl v ∧
                 Engine.new_RooRealVar n n args = Ok v).
Proof.
  intros st s Hfmt. revert st s.
  induction Hfmt as [|combo n0 combos names Hn0 Hfmt IH];
    intros st s Hplain Hargs Hs.
  - exists st. cbn. split_and!.
    + done.
    + rewrite Hs. f_equal. by rewrite union_empty_l_L.
    + lia.
    + done.
    + done.
    + intros k n Hk. by rewrite lookup_nil in Hk.
    + intros n Hin. inversion Hin.
  - apply Forall_cons in Hplain as [Hp0 Hplain].
    destruct (Hargs n0) as [v0 Hv0].
    pose proof (plain_not_reserved _ Hp0) as Hres0.
    pose proof (plain_not_param_list _ Hp0) as Hne0.
    set (st1 := added n0 v0 s st).
    destruct (IH st1 ({[n0]} ∪ s) Hplain Hargs)
      as (st' & Hrun & Ht & Hlen & Hold & Hother & Hcreated & Hholds).
    { by apply added_tracked. }
    assert (Hlen1 : length (heap st1) = (length (heap st) + 2)%nat).
    { cbn. rewrite length_app. cbn. lia. }
    exists st'. split_and!.
    + cbn. run. rewrite Hn0.
      rewrite (add_param_run _ _ _ s v0) by done. exact Hrun.
    + rewrite Ht. f_equal. rewrite list_to_set_cons.
      rewrite (assoc_L (∪) (list_to_set names) {[n0]} s).
      by rewrite (comm_L (∪) (list_to_set names) {[n0]}).
    + rewrite Hlen, Hlen1. cbn. lia.
    + intros l o Hl. apply Hold. by apply added_heap_old.
    + intros n Hin Hpl. apply not_elem_of_cons in Hin as [Hn Hin].
      rewrite Hother by done. cbn.
      rewrite lookup_insert_ne by done. by rewrite lookup_insert_ne.
    + intros k n Hk. destruct k as [|k]; cbn in Hk.
      * injection Hk as <-. exists v0. split; [done|].
        rewrite !Nat.mul_0_r, !Nat.add_0_r. split.
        -- apply Hold. cbn. rewrite lookup_app_r by lia.
           by rewrite Nat.sub_diag.
        -- apply Hold. cbn. rewrite lookup_app_r by lia.
           by replace (length (heap st) + 1 - length (heap st))%nat
             with 1%nat by lia.
      * destruct (Hcreated k n Hk) as (v & Hv & Hvar & Hwrap).
        exists v. split; [done|]. rewrite Hlen1 in Hvar, Hwrap.
        replace (length (heap st) + 2 * S k)%nat
          with (length (heap st) + 2 + 2 * k)%nat by lia.
        done.
    + intros n Hin.
      destruct (decide (n ∈ names)) as [Hrest|Hrest]; [by apply Hholds|].
      apply elem_of_cons in Hin as [->|Hin]; [|done].
      exists (S (length (heap st))), (length (heap st)), v0.
      split; [|done].
      destruct (added_holds_scalar n0 v0 s st) as (Hd & Hl & Hvl).
      split_and!.
      * rewrite Hother by done. exact Hd.
      * by apply Hold.
      * by apply Hold.
Qed.

Lemma named_combinations {A} (f : A → result string) combos names :
  map f combos = Ok <$> names →
  Forall2 (λ combination n, f combination = Ok n) combos names.
Proof.
  revert names. induction combos as [|c combos IH]; intros [|n names] Heq;
    try discriminate Heq.
  - constructor.
  - injection Heq as Hc Hrest. constructor; auto.
Qed.

(** C6: when every combination of the Cartesian product of the axes
    (axes in the given order, later axes fastest) formats to a name, the
    names being [names] in that order, [expand_params] succeeds, having
    built one scalar per combination in that order, each from its name
    and the construction arguments; the names are as many as the product
    of the axes' lengths, all are tracked afterwards and hold a scalar. *)
Theorem expand_params_spec template args kwargs st s names :
  "self" ∉ kwargs.*1 → "template" ∉ kwargs.*1 →
  tracked_names st = Some s →
  (∀ n, ∃ v, Engine.new_RooRealVar n n args = Ok v) →
  expanded_names template kwargs = Ok <$> names →
  Forall (λ n, plain n = true) names →
  ∃ st',
    expand_params template args kwargs st = (Ok tt, st') ∧
    length names
    = foldr (λ axis k, length axis * k)%nat 1%nat kwargs.*2 ∧
    tracked_names st' = Some (list_to_set names ∪ s) ∧
    length (heap st') = (length (heap st) + 2 * length names)%nat ∧
    (∀ k n, names !! k = Some n →
       ∃ v, Engine.new_RooRealVar n n args = Ok v ∧
            heap st' !! (length (heap st) + 2 * k)%nat
            = Some (ORooRealVar v) ∧
            heap st' !! (length (heap st) + 2 * k + 1)%nat
            = Some (ORealVar (length (heap st) + 2 * k))) ∧
    (∀ n, n ∈ names →
       ∃ l vl v, holds_scalar st' n l vl v ∧
                 Engine.new_RooRealVar n n args = Ok v).
Proof.
  intros Hself Htemplate Hs Hargs Hnames Hplain.
  unfold expanded_names in Hnames.
  destruct (expand_loop template args kwargs.*1 (cartesian kwargs.*2)
              names st s)
    as (st' & Hrun & Ht & Hlen & _ & _ & Hcreated & Hholds); try done.
  { by apply named_combinations. }
  exists st'. split_and!; try done.
  - unfold expand_params.
    rewrite bool_decide_eq_false_2 by (by intros [?|?]).
    by rewrite product_cartesian.
  - rewrite <- cartesian_length.
    apply (f_equal length) in Hnames. by rewrite !length_map in Hnames.
Qed.

Lemma expand_params_spec_witness :
  let names := ["p_1_x"; "p_1_y"; "p_2_x"; "p_2_y"] in
  let kwargs := [("a", [VInt 1; VInt 2]); ("b", [VStr "x"; VStr "y"])] in
  expanded_names "p_{a}_{b}" kwargs = Ok <$> names ∧
  ∃ st',
    expand_params "p_{a}_{b}" [VFloat half] kwargs init = (Ok tt, st') ∧
    length names = 4%nat ∧
    tracked_names st' = Some (list_to_set names ∪ ∅) ∧
    ∀ n, n ∈ names →
         ∃ l vl v, holds_scalar st' n l vl v ∧
                   Engine.new_RooRealVar n n [VFloat half] = Ok v.
Proof.
  intros names kwargs.
  assert (Hnames : expanded_names "p_{a}_{b}" kwargs = Ok <$> names)
    by (vm_compute; reflexivity).
  split; [exact Hnames|].
  destruct (expand_params_spec "p_{a}_{b}" [VFloat half] kwargs init ∅ names)
    as (st' & Hrun & Hlen & Ht & _ & _ & Hholds).
  - intros Hin. vm_compute in Hin.
    repeat (apply elem_of_cons in Hin as [Hin|Hin]; [discriminate Hin|]).
    inversion Hin.
  - intros Hin. vm_compute in Hin.
    repeat (apply elem_of_cons in Hin as [Hin|Hin]; [discriminate Hin|]).
    inversion Hin.
  - reflexivity.
  - intros n. eexists. reflexivity.
  - exact Hnames.
  - repeat constructor.
  - exists st'. split_and!; [exact Hrun|reflexivity|exact Ht|exact Hholds].
Defined.

(** * Further properties *)

(** ** Adding and removing *)

(** The first [add_param] of a free name succeeds silently: nothing is
    printed, the name becomes tracked, which makes one tracked name more,
    it holds a new scalar that the engine built from the name and the
    arguments, and the other attributes and the store are as before. *)
Theorem add_param_fresh st s name args v :
  plain name = true →
  tracked_names st = Some s →
  dict st !! name = None →
  name ∉ s →
  Engine.new_RooRealVar name name args = Ok v →
  ∃ st' l vl,
    add_param name args st = (Ok tt, st') ∧
    holds_scalar st' name l vl v ∧
    heap st !! l = None ∧ heap st !! vl = None ∧
    tracked_names st' = Some ({[name]} ∪ s) ∧
    size ({[name]} ∪ s) = S (size s) ∧
    stdout st' = stdout st ∧
    (∀ other, other ≠ name → other ≠ "param_list" →
              dict st' !! other = dict st !! other) ∧
    (∀ l' o, heap st !! l' = Some o → heap st' !! l' = Some o).
Proof.
  intros Hplain Hs Hfree Hout Hv.
  pose proof (plain_not_param_list _ Hplain) as Hne.
  exists (added name v s st), (S (length (heap st))), (length (heap st)).
  split_and!.
  - apply add_param_run; auto using plain_not_reserved.
  - apply added_holds_scalar.
  - apply lookup_ge_None. lia.
  - apply lookup_ge_None. lia.
  - by apply added_tracked.
  - rewrite size_union by (by apply disjoint_singleton_l).
    by rewrite size_singleton.
  - by apply added_stdout_fresh.
  - intros other Ho Hpl. cbn.
    rewrite lookup_insert_ne by done. by rewrite lookup_insert_ne.
  - intros l' o. apply added_heap_old.
Qed.

Lemma add_param_fresh_witness :
  ∃ v st' l vl,
    Engine.new_RooRealVar "y" "y" [VInt 3] = Ok v ∧
    add_param "y" [VInt 3] one_scalar = (Ok tt, st') ∧
    holds_scalar st' "y" l vl v ∧
    tracked_names st' = Some ({["y"]} ∪ {["x"]}) ∧
    stdout st' = stdout one_scalar.
Proof.
  destruct (new_RooRealVar_value "y" "y" (VInt 3) (Qc_of_Z 3))
    as (v & Hv & _); [reflexivity|].
  destruct (add_param_fresh one_scalar {["x"]} "y" [VInt 3] v)
    as (st' & l & vl & Hrun & Hsc & _ & _ & Ht & _ & Hout & _).
  - reflexivity.
  - vm_compute. reflexivity.
  - vm_compute. reflexivity.
  - apply not_elem_of_singleton. discriminate.
  - exact Hv.
  - exists v, st', l, vl. auto.
Defined.

(** When the engine refuses the construction arguments, [add_param]
    raises what the engine raised before anything is tracked or stored:
    the state is as it was. *)
Lemma add_param_refused name args st e :
  Engine.new_RooRealVar name name args = Raise e →
  add_param name args st = (Raise e, st).
Proof.
  intros Hnew. unfold add_param, new_RealVar. run. by rewrite Hnew.
Qed.

(** Adding a free name and popping it again gives back the parameter that
    was added and restores the dictionary, the tracked names included;
    only the store has grown. *)
Theorem add_then_pop st s name args v default_value :
  plain name = true →
  tracked_names st = Some s →
  dict st !! name = None →
  name ∉ s →
  Engine.new_RooRealVar name name args = Ok v →
  ∃ st1 st2 l vl,
    add_param name args st = (Ok tt, st1) ∧
    pop name default_value st1 = (Ok (VRef l), st2) ∧
    holds_scalar st1 name l vl v ∧
    dict st2 = dict st ∧
    stdout st2 = stdout st ∧
    heap st2 = heap st1.
Proof.
  intros Hplain Hs Hfree Hout Hv.
  pose proof (plain_not_param_list _ Hplain) as Hne.
  pose proof (plain_not_reserved _ Hplain) as Hres.
  set (st1 := added name v s st).
  assert (Ht1 : tracked_names st1 = Some ({[name]} ∪ s))
    by (by apply added_tracked).
  eexists st1, _, (S (length (heap st))), (length (heap st)).
  split_and!.
  - by apply add_param_run.
  - unfold pop. run.
    rewrite (get_param_list_ok _ _ ({[name]} ∪ s)) by done.
    rewrite bool_decide_eq_true_2
      by (apply elem_of_union; left; by apply elem_of_singleton).
    unfold param_list_remove, dict_pop. run. cbn.
    rewrite lookup_insert_ne by done. rewrite lookup_insert_eq. reflexivity.
  - apply added_holds_scalar.
  - cbn. apply map_eq. intros k.
    destruct (decide (k = name)) as [->|Hk].
    + by rewrite lookup_delete_eq.
    + rewrite lookup_delete_ne by done.
      destruct (decide (k = "param_list")) as [->|Hpl].
      * rewrite lookup_insert_eq. apply tracked_names_Some in Hs.
        rewrite Hs. do 2 f_equal.
        apply set_eq. intros x.
        rewrite elem_of_difference, elem_of_union, elem_of_singleton.
        split; [intros [[->|Hx] Hn]; done|].
        intros Hx. split; [by right|]. by intros ->.
      * rewrite lookup_insert_ne by done.
        rewrite lookup_insert_ne by done.
        by rewrite lookup_insert_ne.
  - by apply added_stdout_fresh.
  - reflexivity.
Qed.

Lemma add_then_pop_witness :
  ∃ v st1 st2 l vl,
    Engine.new_RooRealVar "y" "y" [VInt 3] = Ok v ∧
    add_param "y" [VInt 3] one_scalar = (Ok tt, st1) ∧
    pop "y" VNone st1 = (Ok (VRef l), st2) ∧
    holds_scalar st1 "y" l vl v ∧
    dict st2 = dict one_scalar.
Proof.
  destruct (new_RooRealVar_value "y" "y" (VInt 3) (Qc_of_Z 3))
    as (v & Hv & _); [reflexivity|].
  destruct (add_then_pop one_scalar {["x"]} "y" [VInt 3] v VNone)
    as (st1 & st2 & l & vl & Hadd & Hpop & Hsc & Hd & _).
  - reflexivity.
  - vm_compute. reflexivity.
  - vm_compute. reflexivity.
  - apply not_elem_of_singleton. discriminate.
  - exact Hv.
  - exists v, st1, st2, l, vl. auto.
Defined.

(** [pop] returns whatever the instance dictionary holds under the key,
    tracked or not: for a stored attribute that is not tracked, the
    default is not used, the attribute is returned and removed, and the
    tracked names stay as they are. *)
Theorem pop_untracked_attribute st s key v default_value :
  tracked_names st = Some s →
  key ∉ s →
  key ≠ "param_list" →
  dict st !! key = Some v →
  ∃ st',
    pop key default_value st = (Ok v, st') ∧
    dict st' = delete key (dict st) ∧
    tracked_names st' = Some s.
Proof.
  intros Hs Hout Hne Hkey.
  exists (set_dict (delete key (dict st)) st). split_and!.
  - unfold pop. run. rewrite (get_param_list_ok _ _ s) by done.
    rewrite bool_decide_eq_false_2 by done.
    unfold dict_pop. by rewrite Hkey.
  - reflexivity.
  - apply tracked_names_Some. cbn. rewrite lookup_delete_ne by done.
    by apply tracked_names_Some.
Qed.

Lemma pop_untracked_attribute_witness :
  ∃ st0 st',
    __setattr__ "note" (VStr "hello") one_scalar = (Ok tt, st0) ∧
    pop "note" VNone st0 = (Ok (VStr "hello"), st') ∧
    tracked_names st' = Some {["x"]}.
Proof.
  set (st0 := (__setattr__ "note" (VStr "hello") one_scalar).2).
  destruct (pop_untracked_attribute st0 {["x"]} "note" (VStr "hello") VNone)
    as (st' & Hpop & _ & Ht).
  - vm_compute. reflexivity.
  - apply not_elem_of_singleton. discriminate.
  - discriminate.
  - vm_compute. reflexivity.
  - exists st0, st'. split_and!; [reflexivity|exact Hpop|exact Ht].
Defined.

(** The attribute that holds the tracked names is itself in reach of
    [pop]: popping [param_list] returns the set of names and takes the
    attribute away, after which nothing is tracked any more and [pop],
    [r], [__repr__] and [add_param] all raise [AttributeError]. *)
Theorem pop_param_list st s default_value :
  tracked_names st = Some s →
  "param_list" ∉ s →
  ∃ st',
    pop "param_list" default_value st = (Ok (VNames s), st') ∧
    tracked_names st' = None ∧
    (∀ key d, pop key d st' = (Raise AttributeError, st')) ∧
    r st' = (Raise AttributeError, st') ∧
    (∀ format_2g, __repr__ format_2g st' = (Raise AttributeError, st')) ∧
    (∀ name args, ∃ st'',
       add_param name args st' = (Raise TypeError, st'') ∨
       add_param name args st' = (Raise AttributeError, st'')).
Proof.
  intros Hs Hout. pose proof Hs as Hd%tracked_names_Some.
  set (st' := set_dict (delete "param_list" (dict st)) st).
  assert (Hgone : ∀ e, get_param_list e st' = (Raise AttributeError, st')).
  { intros e. unfold get_param_list, getattr. run. cbn.
    by rewrite lookup_delete_eq. }
  exists st'. split_and!.
  - unfold pop. run. rewrite (get_param_list_ok _ _ s) by done.
    rewrite bool_decide_eq_false_2 by done.
    unfold dict_pop. by rewrite Hd.
  - unfold tracked_names. cbn. by rewrite lookup_delete_eq.
  - intros key d. unfold pop. run. by rewrite Hgone.
  - unfold r. run. by rewrite Hgone.
  - intros format_2g. unfold __repr__. run. by rewrite Hgone.
  - intros name args. unfold add_param, new_RealVar, param_list_add, alloc.
    run. destruct (Engine.new_RooRealVar name name args) as [v|e] eqn:Hnew.
    + eexists. right. cbn.
      unfold get_param_list, getattr. run. cbn.
      rewrite lookup_delete_eq. reflexivity.
    + exists st'. left. by rewrite (new_RooRealVar_raises _ _ _ _ Hnew).
Qed.

Lemma pop_param_list_witness :
  ∃ st',
    pop "param_list" VNone one_scalar = (Ok (VNames {["x"]}), st') ∧
    tracked_names st' = None ∧
    r st' = (Raise AttributeError, st').
Proof.
  destruct (pop_param_list one_scalar {["x"]} VNone)
    as (st' & Hpop & Ht & _ & Hr & _).
  - vm_compute. reflexivity.
  - apply not_elem_of_singleton. discriminate.
  - exists st'. auto.
Defined.

(** ** Attribute assignment *)

(** Assigning to a name under which nothing is stored stores the value,
    whatever its type, prints nothing and does not track the name: the
    tracked names are the same and [r] exports the same view as before. *)
Theorem setattr_new_name st s name value :
  reserved name = false →
  name ≠ "param_list" →
  dict st !! name = None →
  tracked_names st = Some s →
  (∀ n, n ∈ s → reserved n = false ∧ is_Some (dict st !! n)) →
  ∃ st' view,
    __setattr__ name value st = (Ok tt, st') ∧
    dict st' !! name = Some value ∧
    stdout st' = stdout st ∧
    tracked_names st' = Some s ∧
    r st = (Ok view, st) ∧
    r st' = (Ok view, st').
Proof.
  intros Hres Hne Hfree Hs Hall.
  set (st' := set_dict (<[name := value]> (dict st)) st).
  assert (Hs' : tracked_names st' = Some s).
  { apply tracked_names_Some. cbn. rewrite lookup_insert_ne by done.
    by apply tracked_names_Some. }
  assert (Hother : ∀ n, n ∈ s → dict st' !! n = dict st !! n).
  { intros n Hn. cbn. apply lookup_insert_ne. intros <-.
    destruct (Hall name Hn) as [_ [? Hsome]]. congruence. }
  destruct (r_run st s Hs Hall) as (view & Hrun & Hview).
  destruct (r_run st' s Hs') as (view' & Hrun' & Hview').
  { intros n Hn. rewrite Hother by done. by apply Hall. }
  assert (view' = view) as ->.
  { apply map_eq. intros k. apply option_eq. intros prim.
    rewrite Hview, Hview'. split; intros [Hk (l & Hd & Hl)];
      (split; [done|]); exists l; split; try done.
    - by rewrite <- Hother.
    - by rewrite Hother. }
  exists st', view. split_and!; try done.
  - unfold __setattr__. by rewrite Hres, Hfree.
  - cbn. by rewrite lookup_insert_eq.
Qed.

Lemma setattr_new_name_witness :
  ∃ st' view,
    __setattr__ "note" (VInt 3) one_scalar = (Ok tt, st') ∧
    dict st' !! "note" = Some (VInt 3) ∧
    stdout st' = stdout one_scalar ∧
    tracked_names st' = Some {["x"]} ∧
    r one_scalar = (Ok view, one_scalar) ∧
    r st' = (Ok view, st').
Proof.
  apply (setattr_new_name one_scalar {["x"]} "note" (VInt 3)).
  - reflexivity.
  - discriminate.
  - vm_compute. reflexivity.
  - vm_compute. reflexivity.
  - intros n ->%elem_of_singleton. split; [reflexivity|].
    vm_compute. eexists. reflexivity.
Defined.

(** Assigning a number to a name that holds anything but an object of
    the store (a string, a number, [None], the set of names) raises
    [AttributeError] and changes nothing: the number is not stored. *)
Theorem setattr_number_on_plain_value st name current value :
  reserved name = false →
  dict st !! name = Some current →
  (∀ l, current ≠ VRef l) →
  is_int_or_float value = true →
  __setattr__ name value st = (Raise AttributeError, st).
Proof.
  intros Hres Hd Hcur Hnum.
  unfold __setattr__. rewrite Hres, Hd, Hnum.
  unfold call_setVal. destruct current; try done. by destruct (Hcur l).
Qed.

Lemma setattr_number_on_plain_value_witness :
  __setattr__ "x" (VInt 3) clobbered = (Raise AttributeError, clobbered) ∧
  __setattr__ "param_list" (VFloat half) init = (Raise AttributeError, init).
Proof.
  split.
  - apply (setattr_number_on_plain_value clobbered "x" (VStr "oops")).
    + reflexivity.
    + vm_compute. reflexivity.
    + discriminate.
    + reflexivity.
  - apply (setattr_number_on_plain_value init "param_list" (VNames ∅)).
    + reflexivity.
    + reflexivity.
    + discriminate.
    + reflexivity.
Defined.

(** ** Categories *)

Lemma unique_fold (values seen : list Z) :
  NoDup seen →
  let result :=
    foldl (λ seen v, if bool_decide (v ∈ seen) then seen
                     else (seen ++ [v])%list) seen values in
  NoDup result ∧ ∀ x, x ∈ result ↔ x ∈ seen ∨ x ∈ values.
Proof.
  revert seen. induction values as [|v values IH]; intros seen Hnd; cbn.
  - split; [done|]. intros x. rewrite elem_of_nil. tauto.
  - case_bool_decide as Hv.
    + destruct (IH seen Hnd) as [Hnd' Hin]. split; [done|].
      intros x. rewrite Hin, elem_of_cons. split; [tauto|].
      intros [?|[->|?]]; auto.
    + destruct (IH (seen ++ [v])%list) as [Hnd' Hin].
      { apply NoDup_app. split_and!; [done| |apply NoDup_singleton].
        intros x Hx ->%list_elem_of_singleton. done. }
      split; [done|]. intros x.
      rewrite Hin, elem_of_app, list_elem_of_singleton, elem_of_cons. tauto.
Qed.

(** [unique] keeps every value of the sample once. *)
Lemma unique_spec values :
  NoDup (unique values) ∧ ∀ x, x ∈ unique values ↔ x ∈ values.
Proof.
  destruct (unique_fold values [] (NoDup_nil_2)) as [Hnd Hin].
  split; [done|]. intros x. rewrite Hin, elem_of_nil. tauto.
Qed.

(** Levels whose codes fit and whose labels are new are all defined, in
    order. *)
Lemma define_levels_ok (levels : list Z) : ∀ c : Engine.RooCategory,
  NoDup levels →
  Forall (λ v, Engine.fits_Int_t v = true) levels →
  (∀ v, v ∈ levels → pretty v ∉ (Engine.cat_types c).*1) →
  ∃ c',
    define_levels levels c = Ok c' ∧
    Engine.cat_types c'
    = (Engine.cat_types c ++ ((λ v, (pretty v, v)) <$> levels))%list ∧
    Engine.cat_name c' = Engine.cat_name c ∧
    Engine.cat_constant c' = Engine.cat_constant c.
Proof.
  induction levels as [|v levels IH]; intros c Hnd Hfit Hnew.
  - exists c. split_and!; try done. by rewrite app_nil_r.
  - apply NoDup_cons in Hnd as [Hv Hnd].
    apply Forall_cons in Hfit as [Hfit_v Hfit].
    set (c1 := {| Engine.cat_name := Engine.cat_name c;
                  Engine.cat_title := Engine.cat_title c;
                  Engine.cat_types :=
                    (Engine.cat_types c ++ [(pretty v, v)])%list;
                  Engine.cat_constant := Engine.cat_constant c |}).
    assert (Hstep : Engine.defineType (pretty v) v c = Ok c1).
    { unfold Engine.defineType. rewrite Hfit_v. cbn.
      rewrite bool_decide_eq_false_2; [done|]. apply Hnew. by left. }
    destruct (IH c1 Hnd Hfit) as (c' & Hrun & Htypes & Hname & Hconst).
    + intros w Hw. cbn. rewrite fmap_app, elem_of_app. intros [Hold|Hlast].
      * by apply (Hnew w); [right|].
      * cbn in Hlast. apply list_elem_of_singleton in Hlast.
        apply (inj pretty) in Hlast. by subst.
    + exists c'. split_and!; [|by rewrite Htypes; cbn; rewrite <- app_assoc
                              |done|done].
      unfold define_levels in *. cbn. by rewrite Hstep.
Qed.

Lemma define_levels_raised (levels : list Z) e :
  foldl (λ acc val,
           match acc with
           | Ok c => Engine.defineType (pretty val) val c
           | Raise e => Raise e
           end) (Raise e) levels = Raise e.
Proof. by induction levels. Qed.

(** A code that does not fit ends the loop with an exception. *)
Lemma define_levels_raises (levels : list Z) : ∀ c : Engine.RooCategory,
  Exists (λ v, Engine.fits_Int_t v = false) levels →
  ∃ e, define_levels levels c = Raise e.
Proof.
  induction levels as [|v levels IH]; intros c Hbad; [inversion Hbad|].
  unfold define_levels in *. cbn.
  destruct (Engine.defineType (pretty v) v c) as [c1|e] eqn:Hstep.
  - apply IH. apply Exists_cons in Hbad as [Hv|Hrest]; [|done].
    unfold Engine.defineType in Hstep. rewrite Hv in Hstep.
    discriminate Hstep.
  - exists e. apply define_levels_raised.
Qed.

Lemma fits_unique values :
  Forall (λ v, Engine.fits_Int_t v = true) values →
  Forall (λ v, Engine.fits_Int_t v = true) (unique values).
Proof.
  rewrite !Forall_forall. intros Hfit v Hv. apply Hfit.
  by apply (unique_spec values).
Qed.

(** The state [add_category] leaves for a sample whose values fit the
    level code. *)
Lemma add_category_run name values st s :
  reserved name = false →
  tracked_names st = Some s →
  Forall (λ v, Engine.fits_Int_t v = true) values →
  ∃ c st',
    add_category name values st = (Ok tt, st') ∧
    Engine.cat_types c = (λ v, (pretty v, v)) <$> unique values ∧
    Engine.cat_name c = name ∧ Engine.cat_constant c = false ∧
    dict st' = <[name := VRef (length (heap st))]>
                 (<["param_list" := VNames ({[name]} ∪ s)]> (dict st)) ∧
    heap st' = (heap st ++ [ORooCategory c])%list ∧
    stdout st'
    = match <["param_list" := VNames ({[name]} ∪ s)]> (dict st) !! name with
      | Some _ => (stdout st ++ [warning name])%list
      | None => stdout st
      end.
Proof.
  intros Hres Hs Hfit.
  destruct (unique_spec values) as [Hnd _].
  destruct (define_levels_ok (unique values)
              (Engine.new_RooCategory name name) Hnd (fits_unique _ Hfit))
    as (c & Hlevels & Htypes & Hname & Hconst).
  { intros v _. cbn. apply not_elem_of_nil. }
  set (d := <["param_list" := VNames ({[name]} ∪ s)]> (dict st)).
  exists c,
    {| dict := <[name := VRef (length (heap st))]> d;
       heap := heap st ++ [ORooCategory c];
       stdout := match d !! name with
                 | Some _ => stdout st ++ [warning name]
                 | None => stdout st
                 end |}.
  split_and!; [|exact Htypes|exact Hname|exact Hconst|done..].
  unfold add_category, param_list_add, alloc. run. rewrite Hlevels. cbn.
  rewrite (get_param_list_ok _ _ s) by done. cbn.
  unfold __setattr__. rewrite Hres. cbn. fold d.
  destruct (d !! name); reflexivity.
Qed.

(** A value that does not fit the level code makes [add_category] raise
    before the name is tracked or stored. *)
Lemma add_category_refused name values st :
  Exists (λ v, Engine.fits_Int_t v = false) values →
  ∃ e, add_category name values st = (Raise e, st).
Proof.
  intros Hbad.
  destruct (define_levels_raises (unique values)
              (Engine.new_RooCategory name name)) as [e He].
  { apply Exists_exists in Hbad as (v & Hv & Hfit).
    apply Exists_exists. exists v. split; [|done].
    by apply (unique_spec values). }
  exists e. unfold add_category. run. by rewrite He.
Qed.

(** [add_category] of a sample of integers that all fit the engine's
    32-bit level code succeeds: the name becomes tracked and holds a new
    category whose levels are the distinct values of the sample, each
    once, labelled with its decimal text and coded with itself; a warning
    is printed exactly when something was stored under the name before.
    With a value that does not fit, it raises and the collection is as it
    was. *)
Theorem add_category_levels st s name values :
  plain name = true →
  tracked_names st = Some s →
  (Forall (λ v, Engine.fits_Int_t v = true) values →
   ∃ st' l c,
     add_category name values st = (Ok tt, st') ∧
     dict st' !! name = Some (VRef l) ∧
     heap st' !! l = Some (ORooCategory c) ∧
     heap st !! l = None ∧
     tracked_names st' = Some ({[name]} ∪ s) ∧
     Engine.cat_types c = (λ v, (pretty v, v)) <$> unique values ∧
     NoDup (Engine.cat_types c).*1 ∧
     (∀ v, (pretty v, v) ∈ Engine.cat_types c ↔ v ∈ values) ∧
     (dict st !! name = None → stdout st' = stdout st) ∧
     (is_Some (dict st !! name) →
      stdout st' = (stdout st ++ [warning name])%list)) ∧
  (Exists (λ v, Engine.fits_Int_t v = false) values →
   ∃ e, add_category name values st = (Raise e, st)).
Proof.
  intros Hplain Hs. split; [|apply add_category_refused].
  intros Hfit.
  pose proof (plain_not_param_list _ Hplain) as Hne.
  destruct (add_category_run name values st s
              (plain_not_reserved _ Hplain) Hs Hfit)
    as (c & st' & Hrun & Htypes & _ & _ & Hd & Hh & Hout).
  destruct (unique_spec values) as [Hnd Hin].
  exists st', (length (heap st)), c. split_and!.
  - exact Hrun.
  - rewrite Hd. by rewrite lookup_insert_eq.
  - rewrite Hh. rewrite lookup_app_r by lia. by rewrite Nat.sub_diag.
  - apply lookup_ge_None. lia.
  - apply tracked_names_Some. rewrite Hd.
    rewrite lookup_insert_ne by done. by rewrite lookup_insert_eq.
  - exact Htypes.
  - rewrite Htypes, <- list_fmap_compose.
    apply (NoDup_fmap_2 _). exact Hnd.
  - intros v. rewrite Htypes, list_elem_of_fmap, <- Hin. split.
    + intros (w & [= _ <-] & Hw). exact Hw.
    + intros Hv. by exists v.
  - intros Hfree. rewrite Hout, lookup_insert_ne by done. by rewrite Hfree.
  - intros [cur Hcur]. rewrite Hout, lookup_insert_ne by done.
    by rewrite Hcur.
Qed.

Lemma add_category_levels_witness :
  (∃ st' l c,
     add_category "a" [3; 1; 3]%Z one_scalar = (Ok tt, st') ∧
     dict st' !! "a" = Some (VRef l) ∧
     heap st' !! l = Some (ORooCategory c) ∧
     tracked_names st' = Some ({["a"]} ∪ {["x"]}) ∧
     Engine.cat_types c = [("3", 3%Z); ("1", 1%Z)] ∧
     stdout st' = stdout one_scalar) ∧
  (∃ e, add_category "a" [1; 2 ^ 31]%Z one_scalar = (Raise e, one_scalar)).
Proof.
  destruct (add_category_levels one_scalar {["x"]} "a" [3; 1; 3]%Z)
    as [Hfits _].
  { reflexivity. }
  { vm_compute. reflexivity. }
  destruct (add_category_levels one_scalar {["x"]} "a" [1; 2 ^ 31]%Z)
    as [_ Hbad].
  { reflexivity. }
  { vm_compute. reflexivity. }
  split.
  - destruct Hfits
      as (st' & l & c & Hrun & Hd & Hl & _ & Ht & Htypes & _ & _ & Hout & _).
    + repeat constructor.
    + exists st', l, c. split_and!; try done.
      apply Hout. vm_compute. reflexivity.
  - apply Hbad. right. left. reflexivity.
Defined.

(** ** Tracking and storage stay in step *)

Lemma in_sync_add_param st name args :
  plain name = true → in_sync st → in_sync (add_param name args st).2.
Proof.
  intros Hplain (s & Hs & Hall).
  destruct (Engine.new_RooRealVar name name args) as [v|e] eqn:Hnew.
  - rewrite (add_param_run _ _ _ s v);
      [|by apply plain_not_reserved|done..].
    exists ({[name]} ∪ s). split.
    + apply added_tracked. by apply plain_not_param_list.
    + intros n Hn. cbn.
      destruct (decide (n = name)) as [->|Hne];
        [by rewrite lookup_insert_eq|].
      rewrite lookup_insert_ne by done.
      destruct (decide (n = "param_list")) as [->|Hpl];
        [by rewrite lookup_insert_eq|].
      rewrite lookup_insert_ne by done. apply Hall.
      apply elem_of_union in Hn as [Hn%elem_of_singleton|Hn]; done.
  - rewrite (add_param_refused _ _ _ e) by done. by exists s.
Qed.

Lemma in_sync_add_category st name values :
  plain name = true → in_sync st → in_sync (add_category name values st).2.
Proof.
  intros Hplain (s & Hs & Hall).
  destruct (decide (Forall (λ v, Engine.fits_Int_t v = true) values))
    as [Hfit|Hbad]; cycle 1.
  { apply not_Forall_Exists in Hbad; [|apply _].
    destruct (add_category_refused name values st) as [e He].
    - eapply Exists_impl; [exact Hbad|]. cbn. intros v Hv.
      by destruct (Engine.fits_Int_t v).
    - rewrite He. by exists s. }
  destruct (add_category_run name values st s
              (plain_not_reserved _ Hplain) Hs Hfit)
    as (c & st' & Hrun & _ & _ & _ & Hd & _).
  rewrite Hrun. cbn. exists ({[name]} ∪ s). split.
  - apply tracked_names_Some. rewrite Hd.
    rewrite lookup_insert_ne by (by apply plain_not_param_list).
    by rewrite lookup_insert_eq.
  - intros n Hn. rewrite Hd.
    destruct (decide (n = name)) as [->|Hne];
      [by rewrite lookup_insert_eq|].
    rewrite lookup_insert_ne by done.
    destruct (decide (n = "param_list")) as [->|Hpl];
      [by rewrite lookup_insert_eq|].
    rewrite lookup_insert_ne by done. apply Hall.
    apply elem_of_union in Hn as [Hn%elem_of_singleton|Hn]; done.
Qed.

Lemma in_sync_same_dict st st' :
  dict st' = dict st → in_sync st → in_sync st'.
Proof.
  intros Hd (s & Hs & Hall). exists s. unfold tracked_names in *.
  rewrite Hd. split; [done|]. intros n Hn. by apply Hall.
Qed.

Lemma in_sync_setattr st name value :
  plain name = true → in_sync st → in_sync (__setattr__ name value st).2.
Proof.
  intros Hplain Hsync.
  pose proof (plain_not_param_list _ Hplain) as Hne.
  assert (Hstore : ∀ st0, dict st0 = dict st →
            in_sync (set_dict (<[name := value]> (dict st)) st0)).
  { intros st0 Hd0. destruct Hsync as (s & Hs & Hall). exists s. split.
    - apply tracked_names_Some. cbn. rewrite lookup_insert_ne by done.
      by apply tracked_names_Some.
    - intros n Hn. cbn. destruct (decide (n = name)) as [->|Hn'].
      + by rewrite lookup_insert_eq.
      + rewrite lookup_insert_ne by done. by apply Hall. }
  unfold __setattr__. rewrite (plain_not_reserved _ Hplain).
  destruct (dict st !! name) as [current|]; [|by apply Hstore].
  destruct (is_int_or_float value); [|by apply (Hstore (print _ st))].
  unfold call_setVal.
  repeat case_match; cbn; try done; by eapply in_sync_same_dict.
Qed.

Lemma in_sync_pop st key default_value :
  key ≠ "param_list" → in_sync st → in_sync (pop key default_value st).2.
Proof.
  intros Hne (s & Hs & Hall). pose proof Hs as Hd%tracked_names_Some.
  unfold pop. run. rewrite (get_param_list_ok _ _ s) by done.
  case_bool_decide as Hin.
  - unfold param_list_remove, dict_pop. run. cbn.
    rewrite lookup_insert_ne by done.
    destruct (Hall key Hin) as [v Hv]. rewrite Hv. cbn.
    exists (s ∖ {[key]}). split.
    + apply tracked_names_Some. cbn. rewrite lookup_delete_ne by done.
      by rewrite lookup_insert_eq.
    + intros n [Hn Hnk%not_elem_of_singleton]%elem_of_difference. cbn.
      rewrite lookup_delete_ne by done.
      destruct (decide (n = "param_list")) as [->|Hpl];
        [by rewrite lookup_insert_eq|].
      rewrite lookup_insert_ne by done. by apply Hall.
  - unfold dict_pop. cbn. destruct (dict st !! key) as [v|] eqn:Hv; cbn.
    + exists s. split.
      * apply tracked_names_Some. cbn. by rewrite lookup_delete_ne.
      * intros n Hn. cbn. rewrite lookup_delete_ne; [by apply Hall|].
        by intros <-.
    + by exists s.
Qed.

Lemma in_sync_add_observable st name args values :
  plain name = true → in_sync st →
  in_sync (add_observable name args values st).2.
Proof.
  intros Hplain Hsync. unfold add_observable.
  destruct values as [vs|].
  - run. destruct (np_min vs) as [lo|e]; [|done].
    destruct (np_max vs) as [hi|e]; [|done].
    by apply in_sync_add_param.
  - destruct args; [done|]. by apply in_sync_add_param.
Qed.

Lemma in_sync_expand_loop template args keys combos : ∀ st,
  (∀ combination n,
     format_text template (dict_of (zip keys combination)) = Ok n →
     plain n = true) →
  in_sync st →
  in_sync (for_each combos (λ parameter_values,
             name ← lift (format_text template
                            (dict_of (zip keys parameter_values)));
             add_param name args) st).2.
Proof.
  induction combos as [|combo combos IH]; intros st Hplain Hsync; [done|].
  cbn. run.
  destruct (format_text template (dict_of (zip keys combo)))
    as [n|e] eqn:Hfmt; [|done].
  pose proof (in_sync_add_param st n args (Hplain _ _ Hfmt) Hsync) as Hstep.
  destruct (add_param n args st) as [[[]|e] st1]; [|done].
  by apply IH.
Qed.

Lemma in_sync_expand_params st template args kwargs :
  (∀ combination n,
     format_text template (dict_of (zip kwargs.*1 combination)) = Ok n →
     plain n = true) →
  in_sync st →
  in_sync (expand_params template args kwargs st).2.
Proof.
  intros Hplain Hsync. unfold expand_params.
  case_bool_decide; [done|]. by apply in_sync_expand_loop.
Qed.

(** Every tracked name of a new collection has something stored under
    it, and the operations keep it so, whether they return or raise:
    [add_param], [add_observable], [add_category] and attribute
    assignment for a name that is free for a parameter, [expand_params]
    when the template can only give such names, and [pop] of any key but
    [param_list]. *)
Theorem in_sync_preserved :
  in_sync init ∧
  ∀ st, in_sync st →
    (∀ name args, plain name = true →
       in_sync (add_param name args st).2) ∧
    (∀ name args values, plain name = true →
       in_sync (add_observable name args values st).2) ∧
    (∀ name values, plain name = true →
       in_sync (add_category name values st).2) ∧
    (∀ name value, plain name = true →
       in_sync (__setattr__ name value st).2) ∧
    (∀ template args kwargs,
       (∀ combination n,
          format_text template (dict_of (zip kwargs.*1 combination)) = Ok n →
          plain n = true) →
       in_sync (expand_params template args kwargs st).2) ∧
    (∀ key default_value, key ≠ "param_list" →
       in_sync (pop key default_value st).2).
Proof.
  split.
  - exists ∅. split; [reflexivity|]. intros n Hn.
    by apply not_elem_of_empty in Hn.
  - intros st Hsync. split_and!.
    + intros. by apply in_sync_add_param.
    + intros. by apply in_sync_add_observable.
    + intros. by apply in_sync_add_category.
    + intros. by apply in_sync_setattr.
    + intros. by apply in_sync_expand_params.
    + intros. by apply in_sync_pop.
Qed.

Lemma in_sync_preserved_witness :
  in_sync one_scalar ∧
  in_sync (pop "x" VNone one_scalar).2 ∧
  in_sync (__setattr__ "x" (VStr "oops") one_scalar).2.
Proof.
  destruct in_sync_preserved as [Hinit Hstep].
  assert (Hone : in_sync one_scalar).
  { destruct (Hstep init Hinit) as (Hadd & _).
    apply (Hadd "x" [VFloat (Qc_of_Z 1)]). reflexivity. }
  destruct (Hstep one_scalar Hone) as (_ & _ & _ & Hset & _ & Hpop).
  split_and!.
  - exact Hone.
  - apply Hpop. discriminate.
  - apply Hset. reflexivity.
Defined.

(** ** Template expansion at the edges *)

Lemma cartesian_empty_axis {A} (axes : list (list A)) :
  [] ∈ axes → cartesian axes = [].
Proof.
  induction axes as [|axis axes IH]; intros Hin; [inversion Hin|].
  apply elem_of_cons in Hin as [<-|Hin]; [done|].
  cbn. rewrite IH by done. clear. by induction axis.
Qed.

Lemma expand_params_unfold template args kwargs st :
  "self" ∉ kwargs.*1 → "template" ∉ kwargs.*1 →
  expand_params template args kwargs st
  = for_each (cartesian kwargs.*2) (λ parameter_values,
      name ← lift (format_text template
                     (dict_of (zip kwargs.*1 parameter_values)));
      add_param name args) st.
Proof.
  intros Hself Htemplate. unfold expand_params.
  rewrite bool_decide_eq_false_2 by (by intros [?|?]).
  by rewrite product_cartesian.
Qed.

(** An axis without values leaves nothing to expand: [expand_params]
    returns without formatting the template, without calling the engine
    and without touching the collection, whatever the template and the
    construction arguments are. *)
Theorem expand_params_empty_axis template args kwargs st :
  "self" ∉ kwargs.*1 → "template" ∉ kwargs.*1 →
  [] ∈ kwargs.*2 →
  expand_params template args kwargs st = (Ok tt, st).
Proof.
  intros Hself Htemplate Hempty.
  rewrite expand_params_unfold by done.
  by rewrite cartesian_empty_axis.
Qed.

Lemma expand_params_empty_axis_witness :
  expand_params "{" [] [("a", [VInt 1; VInt 2]); ("b", [])] one_scalar
  = (Ok tt, one_scalar).
Proof.
  apply expand_params_empty_axis.
  - intros Hin. vm_compute in Hin.
    repeat (apply elem_of_cons in Hin as [Hin|Hin]; [discriminate Hin|]).
    inversion Hin.
  - intros Hin. vm_compute in Hin.
    repeat (apply elem_of_cons in Hin as [Hin|Hin]; [discriminate Hin|]).
    inversion Hin.
  - cbn. right. left.
Defined.

(** Without any axis there is exactly one combination, the empty one:
    [expand_params] formats the template with no keywords and adds that
    one name, or raises what the formatting raises. *)
Theorem expand_params_no_axes template args st :
  expand_params template args [] st
  = match format_text template ∅ with
    | Ok name => add_param name args st
    | Raise e => (Raise e, st)
    end.
Proof.
  unfold expand_params. cbn.
  rewrite bool_decide_eq_false_2 by (intros [H|H]; inversion H).
  run. cbn. change (dict_of []) with (∅ : gmap string pyval).
  destruct (format_text template ∅) as [name|e]; cbn; [|done].
  destruct (add_param name args st) as [[[]|e] st']; done.
Qed.

(** When the first combination cannot be formatted, for instance because
    the template names a field that is no axis, [expand_params] raises
    the formatting error and the collection is as it was. *)
Theorem expand_params_first_failure template args kwargs st e first rest :
  "self" ∉ kwargs.*1 → "template" ∉ kwargs.*1 →
  cartesian kwargs.*2 = first :: rest →
  format_text template (dict_of (zip kwargs.*1 first)) = Raise e →
  expand_params template args kwargs st = (Raise e, st).
Proof.
  intros Hself Htemplate Hcombos Hfmt.
  rewrite expand_params_unfold by done.
  rewrite Hcombos. cbn. run. by rewrite Hfmt.
Qed.

Lemma expand_params_first_failure_witness :
  expand_params "p_{c}" [VInt 0] [("a", [VInt 1; VInt 2])] one_scalar
  = (Raise KeyError, one_scalar).
Proof.
  apply (expand_params_first_failure "p_{c}" [VInt 0]
           [("a", [VInt 1; VInt 2])] one_scalar KeyError
           [VInt 1] [[VInt 2]]).
  - intros Hin. vm_compute in Hin.
    repeat (apply elem_of_cons in Hin as [Hin|Hin]; [discriminate Hin|]).
    inversion Hin.
  - intros Hin. vm_compute in Hin.
    repeat (apply elem_of_cons in Hin as [Hin|Hin]; [discriminate Hin|]).
    inversion Hin.
  - reflexivity.
  - vm_compute. reflexivity.
Defined.

(** ** Pattern lookup *)

Section MatchingProperties.

Variable fnmatch : string → string → bool.

(** The comprehension of [glob] over names whose matching ones are all
    stored: the entities of the matching names, in the order of the
    names. *)
Lemma glob_loop_run st expr (names : list string) :
  (∀ n, n ∈ names → fnmatch n expr = true →
        reserved n = false ∧ is_Some (dict st !! n)) →
  ∃ found,
    glob_loop fnmatch names expr st = (Ok found, st) ∧
    Forall2 (λ n v, dict st !! n = Some v)
            (filter (λ n, fnmatch n expr = true) names) found.
Proof.
  induction names as [|n names IH]; intros Hall.
  - exists []. split; [done|]. constructor.
  - destruct IH as (found & Hrun & Hfound).
    { intros m Hm. apply Hall. by right. }
    rewrite filter_cons. cbn [glob_loop].
    destruct (fnmatch n expr) eqn:Hmatch.
    + destruct (Hall n) as [Hres [v Hv]]; [by left|done|].
      exists (v :: found). split.
      * unfold getattr. run. rewrite Hres, Hv. by rewrite Hrun.
      * rewrite decide_True by done. by constructor.
    + exists found. split; [done|].
      rewrite decide_False by (by intros ?). done.
Qed.

End MatchingProperties.

(** [glob] returns the entities stored under the tracked names that
    match, one for each, and leaves the collection as it is; names that
    do not match are not looked up, and when no tracked name matches the
    result is the empty list. *)
Theorem glob_matching fnmatch st s expr :
  tracked_names st = Some s →
  (∀ n, n ∈ s → fnmatch n expr = true →
        reserved n = false ∧ is_Some (dict st !! n)) →
  ∃ matching found,
    glob fnmatch expr st = (Ok found, st) ∧
    NoDup matching ∧
    (∀ n, n ∈ matching ↔ n ∈ s ∧ fnmatch n expr = true) ∧
    Forall2 (λ n v, dict st !! n = Some v) matching found ∧
    ((∀ n, n ∈ s → fnmatch n expr = false) → found = []).
Proof.
  intros Hs Hall.
  destruct (glob_loop_run fnmatch st expr (elements s))
    as (found & Hrun & Hfound).
  { intros n Hn%elem_of_elements. by apply Hall. }
  exists (filter (λ n, fnmatch n expr = true) (elements s)), found.
  split_and!.
  - unfold glob. run. by rewrite (get_param_list_ok _ _ s).
  - apply NoDup_filter, NoDup_elements.
  - intros n. rewrite list_elem_of_filter, elem_of_elements. tauto.
  - exact Hfound.
  - intros Hnone.
    destruct (filter (λ n, fnmatch n expr = true) (elements s))
      as [|n rest] eqn:Hfilter; [by inversion Hfound|].
    assert (Hn : n ∈ filter (λ n, fnmatch n expr = true) (elements s))
      by (rewrite Hfilter; by left).
    apply list_elem_of_filter in Hn as [Htrue Hn%elem_of_elements].
    rewrite (Hnone n Hn) in Htrue. discriminate Htrue.
Qed.

Lemma glob_matching_witness :
  ∃ found,
    glob (λ name _, String.prefix "x" name) "x*" scalar_and_category
    = (Ok found, scalar_and_category) ∧
    found = [VRef 1].
Proof.
  destruct (glob_matching (λ name _, String.prefix "x" name)
              scalar_and_category {["x"; "a"]} "x*")
    as (matching & found & Hrun & _ & Hmatch & Hfound & _).
  - vm_compute. reflexivity.
  - intros n [->%elem_of_singleton| ->%elem_of_singleton]%elem_of_union _.
    + split; [reflexivity|]. vm_compute. eexists. reflexivity.
    + split; [reflexivity|]. vm_compute. eexists. reflexivity.
  - exists found. split; [exact Hrun|].
    vm_compute in Hrun. by injection Hrun as <-.
Defined.

(** ** Rendering *)

Lemma string_app_assoc (a b c : string) : (a ++ b) ++ c = a ++ (b ++ c).
Proof.
  induction a as [|x a IH]; [done|].
  change (String x ((a ++ b) ++ c) = String x (a ++ (b ++ c))).
  by rewrite IH.
Qed.

Lemma string_app_nil_r (a : string) : a ++ "" = a.
Proof.
  induction a as [|x a IH]; [done|].
  change (String x (a ++ "") = String x a). by rewrite IH.
Qed.

Lemma str_le_total : Total str_le.
Proof. intros a b. apply String.leb_total. Qed.

(** An entry of [__repr__] reads the collection and leaves it as it
    is. *)
Lemma repr_entry_state format_2g p st :
  (repr_entry format_2g p st).2 = st.
Proof.
  unfold repr_entry, getattr, call_isConstant. run.
  repeat (case_match; cbn; simplify_eq; try done).
Qed.

Lemma repr_entry_raises format_2g p st e :
  (repr_entry format_2g p st).1 = Raise e →
  e = AttributeError ∨ e = OutsideModel.
Proof.
  unfold repr_entry, getattr, call_isConstant. run.
  repeat (case_match; cbn; simplify_eq; try done);
    intros [= <-]; auto.
Qed.

(** The loop of [__repr__] over names that all hold a wrapped scalar. *)
Lemma repr_loop_scalars format_2g st (names : list string) : ∀ text,
  (∀ n, n ∈ names →
        reserved n = false ∧ ∃ l vl v, holds_scalar st n l vl v) →
  ∃ lines,
    Forall2 (λ n line, ∃ l vl v, holds_scalar st n l vl v ∧
                                 line = scalar_entry n v) names lines ∧
    repr_loop format_2g names text st
    = (Ok (text ++ foldr String.append "" lines), st).
Proof.
  induction names as [|n names IH]; intros text Hall.
  - exists []. split; [constructor|]. cbn. by rewrite string_app_nil_r.
  - destruct (Hall n) as (Hres & l & vl & v & Hsc); [by left|].
    destruct (IH (text ++ scalar_entry n v)) as (lines & Hlines & Hrun).
    { intros m Hm. apply Hall. by right. }
    exists (scalar_entry n v :: lines). split.
    + constructor; [|done]. eauto 6.
    + cbn. run. rewrite (repr_entry_wrapped _ _ _ l vl v) by done.
      fold (scalar_entry n v). rewrite Hrun. by rewrite string_app_assoc.
Qed.

(** The loop of [__repr__] raises as soon as an entry does. *)
Lemma repr_loop_raises format_2g st (names : list string) : ∀ text n,
  n ∈ names →
  (∃ e, (repr_entry format_2g n st).1 = Raise e) →
  ∃ e, repr_loop format_2g names text st = (Raise e, st) ∧
       (e = AttributeError ∨ e = OutsideModel).
Proof.
  induction names as [|p names IH]; intros text n Hin Hfail;
    [inversion Hin|].
  cbn. run.
  pose proof (repr_entry_state format_2g p st) as Hst.
  destruct (repr_entry format_2g p st) as [[entry|e] st'] eqn:Hp;
    cbn in Hst; subst st'.
  - apply elem_of_cons in Hin as [->|Hin].
    + destruct Hfail as [e He]. rewrite Hp in He. discriminate He.
    + by apply (IH _ n).
  - exists e. split; [done|].
    apply (repr_entry_raises format_2g p st). by rewrite Hp.
Qed.

Lemma holds_scalar_functional st name l vl v l' vl' v' :
  holds_scalar st name l vl v → holds_scalar st name l' vl' v' → v' = v.
Proof.
  intros (Hd & Hl & Hvl) (Hd' & Hl' & Hvl').
  rewrite Hd in Hd'. injection Hd' as <-.
  rewrite Hl in Hl'. injection Hl' as <-.
  rewrite Hvl in Hvl'. by injection Hvl' as <-.
Qed.

(** When every tracked name holds a wrapped scalar, [__repr__] returns the
    header with the number of tracked names, followed by one entry for
    every tracked name, in sorted order: the name, and [const] for a
    constant variable; the collection is unchanged. *)
Theorem repr_of_scalars format_2g st s :
  tracked_names st = Some s →
  (∀ n, n ∈ s → reserved n = false ∧ ∃ l vl v, holds_scalar st n l vl v) →
  ∃ names lines,
    Sorted str_le names ∧
    names ≡ₚ elements s ∧
    Forall2 (λ n line, ∃ l vl v, holds_scalar st n l vl v ∧
                                 line = scalar_entry n v) names lines ∧
    __repr__ format_2g st
    = (Ok (repr_header (size s) ++ foldr String.append "" lines), st).
Proof.
  intros Hs Hall.
  destruct (repr_loop_scalars format_2g st (sorted (elements s))
              (repr_header (size s)))
    as (lines & Hlines & Hrun).
  { intros n Hn. apply Hall. apply elem_of_elements.
    unfold sorted in Hn. by rewrite merge_sort_Permutation in Hn. }
  exists (sorted (elements s)), lines. split_and!.
  - apply (@Sorted_merge_sort _ str_le _ str_le_total).
  - apply merge_sort_Permutation.
  - exact Hlines.
  - unfold __repr__. run. rewrite (get_param_list_ok _ _ s) by done.
    exact Hrun.
Qed.

Lemma repr_of_scalars_witness :
  __repr__ (λ _, "") two_scalars
  = (Ok ("Parameter collection" ++ newline ++ "2 parameters:"
         ++ newline ++ "a" ++ tab ++ "const" ++ newline ++ "b"),
     two_scalars).
Proof.
  set (va := {| Engine.GetName := "a"; Engine.GetTitle := "a";
                Engine.getVal := Qc_of_Z 1;
                Engine.getMin := (- Engine.infinity)%Qc;
                Engine.getMax := Engine.infinity;
                Engine.isConstant := true |}).
  set (vb := {| Engine.GetName := "b"; Engine.GetTitle := "b";
                Engine.getVal := half;
                Engine.getMin := Qc_of_Z 0;
                Engine.getMax := Qc_of_Z 1;
                Engine.isConstant := false |}).
  assert (Ha : holds_scalar two_scalars "a" 3 2 va)
    by (unfold holds_scalar; split_and!; vm_compute; reflexivity).
  assert (Hb : holds_scalar two_scalars "b" 1 0 vb)
    by (unfold holds_scalar; split_and!; vm_compute; reflexivity).
  destruct (repr_of_scalars (λ _, "") two_scalars {["a"; "b"]})
    as (names & lines & Hsorted & Hperm & Hlines & Hrun).
  { vm_compute. reflexivity. }
  { intros n [->%elem_of_singleton| ->%elem_of_singleton]%elem_of_union.
    - split; [reflexivity|]. by exists 3%nat, 2%nat, va.
    - split; [reflexivity|]. by exists 1%nat, 0%nat, vb. }
  assert (Hnames : names = ["a"; "b"]).
  { assert (Hel : elements ({["a"; "b"]} : gset string) ≡ₚ ["a"; "b"]).
    { apply NoDup_Permutation.
      - apply NoDup_elements.
      - apply NoDup_cons. split; [|apply NoDup_singleton].
        intros Hin%list_elem_of_singleton. discriminate Hin.
      - intros n. rewrite elem_of_elements, elem_of_union, !elem_of_singleton.
        rewrite elem_of_cons, list_elem_of_singleton. done. }
    rewrite Hel in Hperm. symmetry in Hperm.
    apply Permutation_length_2_inv in Hperm as [->| ->]; [done|].
    apply Sorted_inv in Hsorted as [_ Hhd].
    apply HdRel_inv in Hhd. vm_compute in Hhd. discriminate Hhd. }
  subst names.
  apply Forall2_cons_inv_l in Hlines
    as (la & lines' & (l1 & vl1 & v1 & Hsa & ->) & Hlines & ->).
  apply Forall2_cons_inv_l in Hlines
    as (lb & lines'' & (l2 & vl2 & v2 & Hsb & ->) & Hlines & ->).
  apply Forall2_nil_inv_l in Hlines as ->.
  rewrite (holds_scalar_functional _ _ _ _ _ _ _ _ Ha Hsa) in Hrun.
  rewrite (holds_scalar_functional _ _ _ _ _ _ _ _ Hb Hsb) in Hrun.
  rewrite Hrun. reflexivity.
Defined.

(** When some tracked name holds a value that is no object of the store
    (after an assignment replaced the parameter by a string, say),
    [__repr__] raises and returns no text; the collection is unchanged. *)
Theorem repr_fails_on_replaced_entity format_2g st s name current :
  tracked_names st = Some s →
  name ∈ s →
  dict st !! name = Some current →
  (∀ l, current ≠ VRef l) →
  ∃ e, __repr__ format_2g st = (Raise e, st) ∧
       (e = AttributeError ∨ e = OutsideModel).
Proof.
  intros Hs Hin Hd Hcur.
  unfold __repr__. run. rewrite (get_param_list_ok _ _ s) by done.
  apply (repr_loop_raises _ _ _ _ name).
  - unfold sorted. rewrite merge_sort_Permutation.
    by apply elem_of_elements.
  - unfold repr_entry, getattr, call_isConstant. run.
    destruct (reserved name); [by eexists|]. rewrite Hd.
    destruct current; try (by eexists). by destruct (Hcur l).
Qed.

Lemma repr_fails_on_replaced_entity_witness :
  ∃ e, __repr__ (λ _, "") clobbered = (Raise e, clobbered) ∧
       (e = AttributeError ∨ e = OutsideModel).
Proof.
  apply (repr_fails_on_replaced_entity (λ _, "") clobbered {["x"]} "x"
           (VStr "oops")).
  - vm_compute. reflexivity.
  - apply elem_of_singleton. reflexivity.
  - vm_compute. reflexivity.
  - discriminate.
Defined.

(** ** The sample points *)

Lemma linspace_lookup start stop num i :
  (i < num)%nat →
  Plotter.linspace start stop num !! i
  = Some (start + Qc_of_Z (Z.of_nat i)
                  * ((stop - start) / Qc_of_Z (Z.of_nat num - 1)))%Qc.
Proof.
  intros Hi. unfold Plotter.linspace.
  rewrite list_lookup_fmap, lookup_seq_lt by done. reflexivity.
Qed.

Lemma linspace_last start stop num :
  (2 <= num)%nat → last (Plotter.linspace start stop num) = Some stop.
Proof.
  intros Hnum. rewrite last_lookup, linspace_length.
  rewrite linspace_lookup by lia. f_equal.
  replace (Z.of_nat (Init.Nat.pred num)) with (Z.of_nat num - 1)%Z by lia.
  field. intros Hz. rewrite <- Z2Qc_inj_0 in Hz.
  apply Z2Qc_inj in Hz. lia.
Qed.

Lemma linspace_first start stop num :
  (1 <= num)%nat → head (Plotter.linspace start stop num) = Some start.
Proof.
  intros Hnum. rewrite head_lookup, linspace_lookup by lia. f_equal.
  change (Z.of_nat 0) with 0%Z. rewrite Z2Qc_inj_0. ring.
Qed.

(** The sampler returns as many abscissas as ordinates, [sampling_steps]
    of each, whatever the target; the abscissas start at the variable's
    lower bound, end at its upper bound when there are two or more, and
    are evenly spaced; without a target the ordinates are the
    interpolated values. *)
Theorem sample_pdf_points steps interpolate variable norm :
  ∃ xs ys,
    (Plotter.sample_pdf steps interpolate variable norm).1 = Ok (xs, ys) ∧
    length xs = steps ∧ length ys = steps ∧
    ((1 <= steps)%nat → head xs = Some (Engine.getMin variable)) ∧
    ((2 <= steps)%nat → last xs = Some (Engine.getMax variable)) ∧
    (∀ i a b, xs !! i = Some a → xs !! S i = Some b →
       (b - a = (Engine.getMax variable - Engine.getMin variable)
                / Qc_of_Z (Z.of_nat steps - 1))%Qc) ∧
    (norm = None → ys = Plotter.Finite <$> (interpolate <$> xs)).
Proof.
  set (xs := Plotter.linspace (Engine.getMin variable)
                              (Engine.getMax variable) steps).
  assert (Hlen : length xs = steps) by apply linspace_length.
  assert (Hgrid :
    (1 <= steps → head xs = Some (Engine.getMin variable))%nat ∧
    (2 <= steps → last xs = Some (Engine.getMax variable))%nat ∧
    (∀ i a b, xs !! i = Some a → xs !! S i = Some b →
       (b - a = (Engine.getMax variable - Engine.getMin variable)
                / Qc_of_Z (Z.of_nat steps - 1))%Qc)).
  { split_and!.
    - apply linspace_first.
    - apply linspace_last.
    - intros i a b Ha Hb.
      assert (S i < steps)%nat as Hi
        by (rewrite <- Hlen; by eapply lookup_lt_Some).
      unfold xs in Ha, Hb.
      rewrite linspace_lookup in Ha by lia.
      rewrite linspace_lookup in Hb by lia.
      injection Ha as <-. injection Hb as <-.
      replace (Z.of_nat (S i)) with (Z.of_nat i + 1)%Z by lia.
      rewrite Z2Qc_inj_add, Z2Qc_inj_1. ring. }
  destruct Hgrid as (Hfirst & Hlast & Hstep).
  destruct norm as [n|].
  - eexists xs, _. split_and!; [reflexivity|done| |done|done|done|done].
    by rewrite !length_map.
  - eexists xs, _. split_and!; [reflexivity|done| |done|done|done|done].
    by rewrite !length_map.
Qed.

(** ** The variable after sampling *)

Lemma setVal_fold (grid : list Qc) (variable : Engine.RooRealVar) :
  let variable' := foldl (λ v x, Engine.setVal x v) variable grid in
  Engine.getMin variable' = Engine.getMin variable ∧
  Engine.getMax variable' = Engine.getMax variable ∧
  Engine.isConstant variable' = Engine.isConstant variable ∧
  Engine.GetName variable' = Engine.GetName variable ∧
  Engine.getVal variable'
  = match last grid with
    | Some x => Engine.clip (Engine.getMin variable)
                            (Engine.getMax variable) x
    | None => Engine.getVal variable
    end.
Proof.
  induction grid as [|x grid IH] using rev_ind; [done|].
  cbn in *. rewrite foldl_snoc, last_snoc.
  destruct IH as (Hmin & Hmax & Hconst & Hname & _). cbn.
  by rewrite Hmin, Hmax.
Qed.

Lemma clip_inside lo hi x :
  (lo <= x)%Qc → (x <= hi)%Qc → Engine.clip lo hi x = x.
Proof.
  intros Hlo Hhi. apply clip_within. split; by right.
Qed.

(** Sampling moves the variable and does not move it back: with two or
    more sample points and bounds in order, the variable's value after
    [sample_pdf] is its upper bound, the last sample point, whatever it
    was before; its bounds and its constancy are untouched, and with no
    sample point the variable is as it was. *)
Theorem sample_pdf_moves_variable steps interpolate variable norm :
  let variable' :=
    (Plotter.sample_pdf steps interpolate variable norm).2 in
  Engine.getMin variable' = Engine.getMin variable ∧
  Engine.getMax variable' = Engine.getMax variable ∧
  Engine.isConstant variable' = Engine.isConstant variable ∧
  ((2 <= steps)%nat →
   (Engine.getMin variable <= Engine.getMax variable)%Qc →
   Engine.getVal variable' = Engine.getMax variable) ∧
  (steps = 0%nat → variable' = variable).
Proof.
  set (grid := Plotter.linspace (Engine.getMin variable)
                                (Engine.getMax variable) steps).
  assert (Hvar : (Plotter.sample_pdf steps interpolate variable norm).2
                 = foldl (λ v x, Engine.setVal x v) variable grid)
    by (by destruct norm).
  cbn zeta. rewrite Hvar.
  destruct (setVal_fold grid variable) as (Hmin & Hmax & Hconst & _ & Hval).
  split_and!; try done.
  - intros Hsteps Hle. rewrite Hval. unfold grid.
    rewrite linspace_last by done.
    apply clip_inside; [done|apply Qcle_refl].
  - intros ->. reflexivity.
Qed.

Lemma sample_pdf_moves_variable_witness :
  Engine.getVal unit_interval = half ∧
  Engine.getVal
    (Plotter.sample_pdf 3 (λ x, x) unit_interval None).2 = Qc_of_Z 1.
Proof.
  split; [reflexivity|].
  destruct (sample_pdf_moves_variable 3 (λ x, x) unit_interval None)
    as (_ & _ & _ & Hval & _).
  apply Hval.
  - lia.
  - intros H. vm_compute in H. discriminate H.
Defined.

Lemma sample_pdf_points_witness :
  ∃ xs ys,
    (Plotter.sample_pdf 3 (λ x, x) unit_interval (Some (Qc_of_Z 2))).1
    = Ok (xs, ys) ∧
    length xs = 3%nat ∧ length ys = 3%nat ∧
    head xs = Some (Qc_of_Z 0) ∧ last xs = Some (Qc_of_Z 1).
Proof.
  destruct (sample_pdf_points 3 (λ x, x) unit_interval (Some (Qc_of_Z 2)))
    as (xs & ys & Hrun & Hx & Hy & Hfirst & Hlast & _).
  exists xs, ys. split_and!; [done|done|done|apply Hfirst; lia|apply Hlast; lia].
Defined.

(** ** Normalisation *)

(** The target removes the scale of the curve: a curve and a non-zero
    multiple of it, sampled with the same target, give the same result,
    provided the integral is not zero. *)
Theorem sample_pdf_scale_invariant steps interpolate variable norm c :
  let xs := Plotter.linspace (Engine.getMin variable)
                             (Engine.getMax variable) steps in
  c ≠ 0%Qc →
  Plotter.trapz (interpolate <$> xs) xs ≠ 0%Qc →
  Plotter.sample_pdf steps (λ x, c * interpolate x)%Qc variable (Some norm)
  = Plotter.sample_pdf steps interpolate variable (Some norm).
Proof.
  intros xs Hc Hnz. unfold Plotter.sample_pdf. fold xs.
  set (integral := Plotter.trapz (interpolate <$> xs) xs) in *.
  assert (Hscaled :
    Plotter.trapz ((λ x, c * interpolate x)%Qc <$> xs) xs
    = (integral * c)%Qc).
  { unfold integral. rewrite <- trapz_scale. f_equal.
    rewrite <- list_fmap_compose.
    apply list_fmap_ext. intros _ x _. cbn. ring. }
  rewrite Hscaled. do 3 f_equal. rewrite <- !list_fmap_compose.
  apply list_fmap_ext. intros _ x _. cbn.
  rewrite !divide_nonzero; [|done|].
  - cbn. f_equal. by field.
  - intros Hz. apply Qcmult_integral in Hz as [?|?]; done.
Qed.

Lemma sample_pdf_scale_invariant_witness :
  Plotter.sample_pdf 3 (λ x, Qc_of_Z 5 * x)%Qc unit_interval
                     (Some (Qc_of_Z 2))
  = Plotter.sample_pdf 3 (λ x, x) unit_interval (Some (Qc_of_Z 2)).
Proof.
  apply (sample_pdf_scale_invariant 3 (λ x, x) unit_interval (Qc_of_Z 2)
           (Qc_of_Z 5)).
  - intros H. apply (f_equal this) in H. vm_compute in H. discriminate H.
  - intros H. apply (f_equal this) in H. vm_compute in H. discriminate H.
Defined.

Lemma trapz_single (y x : Qc) : Plotter.trapz [y] [x] = 0%Qc.
Proof. reflexivity. Qed.

(** With fewer than two sample points there is no area to normalise:
    sampling at a single point with a target returns that point and an
    ordinate that is not finite. *)
Theorem sample_pdf_single_point interpolate variable norm :
  ∃ y,
    (Plotter.sample_pdf 1 interpolate variable (Some norm)).1
    = Ok ([Engine.getMin variable], [y]) ∧
    Plotter.is_finite y = false.
Proof.
  assert (Hgrid : Plotter.linspace (Engine.getMin variable)
                    (Engine.getMax variable) 1 = [Engine.getMin variable]).
  { unfold Plotter.linspace. cbn. f_equal.
    change (Z.of_nat 0) with 0%Z. rewrite Z2Qc_inj_0. ring. }
  eexists. split.
  - unfold Plotter.sample_pdf. cbn [fst]. rewrite Hgrid. cbn [fmap list_fmap].
    rewrite trapz_single. reflexivity.
  - apply divide_zero_not_finite.
Qed.

(** ** Templates that name no axis *)

(** A template without braces is its own expansion, whatever the
    keywords. *)
Lemma format_text_literal template kw :
  any_char is_brace template = false → format_text template kw = Ok template.
Proof.
  induction template as [|c rest IH]; intros Hlit; [done|].
  cbn in Hlit. apply orb_false_iff in Hlit as [Hc Hrest].
  specialize (IH Hrest).
  destruct c as [[] [] [] [] [] [] [] []]; try discriminate Hc;
    cbn; rewrite IH; reflexivity.
Qed.

(** The loop of [expand_params] when every combination gets the same
    name: the later ones replace the earlier ones, each with a warning. *)
Lemma constant_loop template args keys v (combos : list (list pyval)) :
  ∀ st s,
  any_char is_brace template = false →
  plain template = true →
  Engine.new_RooRealVar template template args = Ok v →
  tracked_names st = Some s →
  ∃ st',
    for_each combos (λ parameter_values,
      name ← lift (format_text template
                     (dict_of (zip keys parameter_values)));
      add_param name args) st = (Ok tt, st') ∧
    length (heap st') = (length (heap st) + 2 * length combos)%nat ∧
    stdout st'
    = (stdout st
       ++ replicate (length combos
                     - match dict st !! template with
                       | Some _ => 0
                       | None => 1
                       end)%nat
                    (warning template))%list ∧
    (combos ≠ [] →
     tracked_names st' = Some ({[template]} ∪ s) ∧
     ∃ l vl, holds_scalar st' template l vl v).
Proof.
  induction combos as [|combo combos IH]; intros st s Hlit Hplain Hv Hs.
  - exists st. split_and!; [done|cbn; lia| |done].
    cbn. by rewrite app_nil_r.
  - pose proof (plain_not_param_list _ Hplain) as Hne.
    set (st1 := added template v s st).
    destruct (IH st1 ({[template]} ∪ s) Hlit Hplain Hv)
      as (st' & Hrun & Hlen & Hout & Hlast).
    { by apply added_tracked. }
    assert (Hstored : dict st1 !! template = Some (VRef (S (length (heap st)))))
      by (cbn; by rewrite lookup_insert_eq).
    rewrite Hstored in Hout.
    exists st'. split_and!.
    + cbn. run. rewrite format_text_literal by done.
      rewrite (add_param_run _ _ _ s v);
        [exact Hrun|by apply plain_not_reserved|done..].
    + rewrite Hlen. cbn. rewrite length_app. cbn. lia.
    + rewrite Hout. rewrite Nat.sub_0_r. cbn [length]. unfold st1.
      destruct (dict st !! template) as [cur|] eqn:Hcur.
      * rewrite (added_stdout_stored _ _ _ st) by (by rewrite Hcur).
        rewrite <- app_assoc. f_equal.
      * rewrite (added_stdout_fresh _ _ _ st) by done.
        by rewrite Nat.sub_succ, Nat.sub_0_r.
    + intros _. destruct combos as [|combo' combos].
      * cbn in Hrun. injection Hrun as <-. split.
        -- by apply added_tracked.
        -- eexists _, _. apply added_holds_scalar.
      * destruct Hlast as [Ht Hsc]; [done|]. split; [|done].
        rewrite Ht. f_equal.
        rewrite (assoc_L (∪)). f_equal. apply union_idemp_L.
Qed.

(** A template without a field gives every combination the same name:
    [expand_params] builds a scalar per combination all the same, each
    replacing the one before with a warning, so that one name is tracked
    and the output grows by one warning per combination, less one if the
    name was free. *)
Theorem expand_params_constant_template template args kwargs st s v :
  "self" ∉ kwargs.*1 → "template" ∉ kwargs.*1 →
  any_char is_brace template = false →
  plain template = true →
  Engine.new_RooRealVar template template args = Ok v →
  tracked_names st = Some s →
  cartesian kwargs.*2 ≠ [] →
  ∃ st' l vl,
    expand_params template args kwargs st = (Ok tt, st') ∧
    tracked_names st' = Some ({[template]} ∪ s) ∧
    holds_scalar st' template l vl v ∧
    length (heap st')
    = (length (heap st) + 2 * length (cartesian kwargs.*2))%nat ∧
    stdout st'
    = (stdout st
       ++ replicate (length (cartesian kwargs.*2)
                     - match dict st !! template with
                       | Some _ => 0
                       | None => 1
                       end)%nat
                    (warning template))%list.
Proof.
  intros Hself Htemplate Hlit Hplain Hv Hs Hcombos.
  destruct (constant_loop template args kwargs.*1 v (cartesian kwargs.*2)
              st s Hlit Hplain Hv Hs)
    as (st' & Hrun & Hlen & Hout & Hlast).
  destruct (Hlast Hcombos) as (Ht & l & vl & Hsc).
  exists st', l, vl. split_and!; try done.
  by rewrite expand_params_unfold.
Qed.

Lemma expand_params_constant_template_witness :
  ∃ v st' l vl,
    expand_params "mu" [VInt 0] [("a", [VInt 1; VInt 2; VInt 3])] init
    = (Ok tt, st') ∧
    tracked_names st' = Some ({["mu"]} ∪ ∅) ∧
    holds_scalar st' "mu" l vl v ∧
    length (heap st') = 6%nat ∧
    stdout st' = [warning "mu"; warning "mu"].
Proof.
  destruct (new_RooRealVar_value "mu" "mu" (VInt 0) (Qc_of_Z 0))
    as (v & Hv & _); [reflexivity|].
  destruct (expand_params_constant_template "mu" [VInt 0]
              [("a", [VInt 1; VInt 2; VInt 3])] init ∅ v)
    as (st' & l & vl & Hrun & Ht & Hsc & Hlen & Hout).
  - intros Hin. vm_compute in Hin.
    repeat (apply elem_of_cons in Hin as [Hin|Hin]; [discriminate Hin|]).
    inversion Hin.
  - intros Hin. vm_compute in Hin.
    repeat (apply elem_of_cons in Hin as [Hin|Hin]; [discriminate Hin|]).
    inversion Hin.
  - reflexivity.
  - reflexivity.
  - exact Hv.
  - reflexivity.
  - discriminate.
  - exists v, st', l, vl. split_and!; done.
Defined.

(** ** Failures that leave no trace *)

(** When the engine refuses the construction arguments, nothing is
    tracked or stored: [add_param] raises what the engine raised with the
    collection as it was, and so do [add_observable] without a sample and
    [expand_params] on its first combination. *)
Theorem engine_refusal_leaves_state name args st e :
  Engine.new_RooRealVar name name args = Raise e →
  add_param name args st = (Raise e, st) ∧
  (args ≠ [] → add_observable name args None st = (Raise e, st)) ∧
  (∀ template kwargs first rest,
     "self" ∉ kwargs.*1 → "template" ∉ kwargs.*1 →
     cartesian kwargs.*2 = first :: rest →
     format_text template (dict_of (zip kwargs.*1 first)) = Ok name →
     expand_params template args kwargs st = (Raise e, st)).
Proof.
  intros Hnew. split_and!.
  - by apply add_param_refused.
  - intros Hargs. destruct args; [done|]. by apply add_param_refused.
  - intros template kwargs first rest Hself Htemplate Hcombos Hfmt.
    rewrite expand_params_unfold by done. rewrite Hcombos. cbn. run.
    rewrite Hfmt. by rewrite (add_param_refused _ _ _ e).
Qed.

Lemma engine_refusal_leaves_state_witness :
  add_param "y" [VStr "wide"] one_scalar = (Raise TypeError, one_scalar) ∧
  add_observable "y" [VStr "wide"] None one_scalar
  = (Raise TypeError, one_scalar).
Proof.
  destruct (engine_refusal_leaves_state "y" [VStr "wide"] one_scalar TypeError)
    as (Hadd & Hobs & _).
  - reflexivity.
  - split; [exact Hadd|]. by apply Hobs.
Defined.

(** ** Export follows the collection *)

Lemma primitive_of_same st st' n prim :
  dict st' !! n = dict st !! n →
  (∀ l, dict st !! n = Some (VRef l) → heap st' !! l = heap st !! l) →
  primitive_of st' n prim ↔ primitive_of st n prim.
Proof.
  intros Hd Hh. unfold primitive_of. rewrite Hd. split.
  - intros (l & Hl & Hobj). exists l. split; [done|].
    by rewrite <- (Hh l Hl).
  - intros (l & Hl & Hobj). exists l. split; [done|].
    by rewrite (Hh l Hl).
Qed.

Lemma primitive_of_names st n s prim :
  dict st !! n = Some (VNames s) → ¬ primitive_of st n prim.
Proof. intros Hd (l & Hl & _). congruence. Qed.

(** After a free name was added, the exported view is the one before
    with one entry more: the new name, mapped to the engine variable
    that was built for it. *)
Theorem export_after_add st s name args v :
  plain name = true →
  tracked_names st = Some s →
  (∀ n, n ∈ s → reserved n = false ∧
                ∃ l, dict st !! n = Some (VRef l) ∧ is_Some (heap st !! l)) →
  dict st !! name = None →
  Engine.new_RooRealVar name name args = Ok v →
  ∃ st' view vl,
    add_param name args st = (Ok tt, st') ∧
    r st = (Ok view, st) ∧
    r st' = (Ok (<[name := VRef vl]> view), st') ∧
    view !! name = None ∧
    heap st' !! vl = Some (ORooRealVar v).
Proof.
  intros Hplain Hs Hall Hfree Hv.
  pose proof (plain_not_param_list _ Hplain) as Hne.
  pose proof (plain_not_reserved _ Hplain) as Hres.
  pose proof Hs as Hpl%tracked_names_Some.
  set (st' := added name v s st).
  assert (Hout : name ∉ s).
  { intros Hin. destruct (Hall name Hin) as (_ & l & Hl & _). congruence. }
  assert (Hkeep : ∀ n, n ∈ s → dict st' !! n = dict st !! n).
  { intros n Hn. destruct (Hall n Hn) as (_ & l & Hl & _). cbn.
    rewrite lookup_insert_ne by (by intros <-).
    apply lookup_insert_ne. intros <-. congruence. }
  destruct (r_run st s Hs) as (view & Hrun & Hview).
  { intros n Hn. destruct (Hall n Hn) as (? & l & Hl & _). eauto. }
  destruct (r_run st' ({[name]} ∪ s)) as (view' & Hrun' & Hview').
  { by apply added_tracked. }
  { intros n [->%elem_of_singleton|Hn]%elem_of_union.
    - split; [done|]. cbn. by rewrite lookup_insert_eq.
    - destruct (Hall n Hn) as (Hn_res & l & Hl & _). split; [done|].
      rewrite Hkeep by done. eauto. }
  destruct (added_holds_scalar name v s st) as (Hd & Hl & Hvl).
  assert (Hnew : primitive_of st' name (VRef (length (heap st)))).
  { exists (S (length (heap st))). split; [done|]. left. eauto. }
  assert (Hold : ∀ n prim, n ∈ s →
            primitive_of st' n prim ↔ primitive_of st n prim).
  { intros n prim Hn. destruct (Hall n Hn) as (_ & l & Hl' & [o Ho]).
    apply primitive_of_same; [by apply Hkeep|].
    intros l0 Hl0. assert (l0 = l) as -> by congruence.
    rewrite Ho. by apply added_heap_old. }
  assert (view' = <[name := VRef (length (heap st))]> view) as ->.
  { apply map_eq. intros k. apply option_eq. intros prim.
    rewrite Hview'. destruct (decide (k = name)) as [->|Hk].
    - rewrite lookup_insert_eq. split.
      + intros [_ Hp]. f_equal.
        by apply (primitive_of_functional st' name).
      + intros [= <-]. split; [|done].
        apply elem_of_union. left. by apply elem_of_singleton.
    - rewrite lookup_insert_ne by done. rewrite Hview. split.
      + intros [[Hk'%elem_of_singleton|Hk']%elem_of_union Hp]; [done|].
        split; [done|]. by apply Hold.
      + intros [Hk' Hp]. split; [apply elem_of_union; by right|].
        by apply Hold. }
  exists st', view, (length (heap st)). split_and!; try done.
  - by apply add_param_run.
  - destruct (view !! name) as [prim|] eqn:Hprim; [|done].
    apply Hview in Hprim as [Hin _]. done.
Qed.

Lemma export_after_add_witness :
  ∃ v st' view vl,
    add_param "y" [VInt 3] one_scalar = (Ok tt, st') ∧
    r one_scalar = (Ok view, one_scalar) ∧
    r st' = (Ok (<["y" := VRef vl]> view), st') ∧
    heap st' !! vl = Some (ORooRealVar v).
Proof.
  destruct (new_RooRealVar_value "y" "y" (VInt 3) (Qc_of_Z 3))
    as (v & Hv & _); [reflexivity|].
  destruct (export_after_add one_scalar {["x"]} "y" [VInt 3] v)
    as (st' & view & vl & Hadd & Hr & Hr' & _ & Hvl).
  - reflexivity.
  - vm_compute. reflexivity.
  - intros n ->%elem_of_singleton. split; [reflexivity|].
    exists 1%nat. split; vm_compute; [reflexivity|eexists; reflexivity].
  - vm_compute. reflexivity.
  - exact Hv.
  - exists v, st', view, vl. auto.
Defined.

(** After a tracked parameter was popped, the exported view is the one
    before without the entry of that name. *)
Theorem export_after_pop st s key l default_value :
  tracked_names st = Some s →
  (∀ n, n ∈ s → reserved n = false ∧ is_Some (dict st !! n)) →
  key ∈ s →
  dict st !! key = Some (VRef l) →
  ∃ st' view,
    pop key default_value st = (Ok (VRef l), st') ∧
    r st = (Ok view, st) ∧
    r st' = (Ok (delete key view), st').
Proof.
  intros Hs Hall Hin Hkey.
  pose proof Hs as Hpl%tracked_names_Some.
  assert (Hne : key ≠ "param_list") by (intros ->; congruence).
  set (st' := set_dict (delete key (<["param_list" := VNames (s ∖ {[key]})]>
                                      (dict st))) st).
  assert (Hs' : tracked_names st' = Some (s ∖ {[key]})).
  { apply tracked_names_Some. cbn. rewrite lookup_delete_ne by done.
    by rewrite lookup_insert_eq. }
  assert (Hsame : ∀ n prim, n ≠ key →
            primitive_of st' n prim ↔ primitive_of st n prim).
  { intros n prim Hnk.
    destruct (decide (n = "param_list")) as [->|Hnpl].
    - split; intros Hp; exfalso.
      + apply (primitive_of_names st' "param_list" (s ∖ {[key]}) prim);
          [|done].
        cbn. rewrite lookup_delete_ne by done. by rewrite lookup_insert_eq.
      + by apply (primitive_of_names st "param_list" s prim).
    - apply primitive_of_same; [|done]. cbn.
      rewrite lookup_delete_ne by done. by rewrite lookup_insert_ne. }
  destruct (r_run st s Hs Hall) as (view & Hrun & Hview).
  destruct (r_run st' (s ∖ {[key]}) Hs') as (view' & Hrun' & Hview').
  { intros n [Hn Hnk%not_elem_of_singleton]%elem_of_difference.
    destruct (Hall n Hn) as [Hres [cur Hcur]]. split; [done|]. cbn.
    rewrite lookup_delete_ne by done.
    destruct (decide (n = "param_list")) as [->|Hnpl].
    - by rewrite lookup_insert_eq.
    - rewrite lookup_insert_ne by done. eauto. }
  assert (view' = delete key view) as ->.
  { apply map_eq. intros k. apply option_eq. intros prim.
    rewrite Hview'. destruct (decide (k = key)) as [->|Hk].
    - rewrite lookup_delete_eq. split; [|done].
      intros [[_ Hnot]%elem_of_difference _].
      exfalso. by apply Hnot, elem_of_singleton.
    - rewrite lookup_delete_ne by done. rewrite Hview.
      rewrite elem_of_difference, elem_of_singleton, (Hsame k prim Hk).
      tauto. }
  exists st', view. split_and!; try done.
  unfold pop. run. rewrite (get_param_list_ok _ _ s) by done.
  rewrite bool_decide_eq_true_2 by done.
  unfold param_list_remove, dict_pop. run. cbn.
  rewrite lookup_insert_ne by done. by rewrite Hkey.
Qed.

Lemma export_after_pop_witness :
  ∃ st' view,
    pop "x" VNone scalar_and_category = (Ok (VRef 1), st') ∧
    r scalar_and_category = (Ok view, scalar_and_category) ∧
    r st' = (Ok (delete "x" view), st').
Proof.
  apply (export_after_pop scalar_and_category {["x"; "a"]} "x" 1%nat VNone).
  - vm_compute. reflexivity.
  - intros n [->%elem_of_singleton| ->%elem_of_singleton]%elem_of_union.
    + split; [reflexivity|]. vm_compute. eexists. reflexivity.
    + split; [reflexivity|]. vm_compute. eexists. reflexivity.
  - apply elem_of_union. left. by apply elem_of_singleton.
  - vm_compute. reflexivity.
Defined.
